(** * Iterators and generators of [homeworks/iterators/iterator.py]

    A shallow embedding of the five lazy-sequence tasks of the module
    (chain, zip, primes, combinations, flatten) and the properties their
    specification states about them.

    Conventions of the embedding.
    - An iterator class is a state type with a [next] function
      [state -> option elt * state]: [Some x] is a returned element, [None]
      is [StopIteration]; the state component is the object after the call.
    - A generator function whose body always runs to completion on finite
      inputs is the list of the values it yields, in order.  The one
      generator that can run for ever ([zip_sequences] without arguments)
      is given as a step function on its suspended state.
    - An operation that may raise ([x[i]], [x[i] = v], [x.pop()]) returns an
      [option]; [None] is the exception.
    - A [while] loop is a function defined by well-founded recursion on the
      quantity that bounds its turns.
    - The two recursive flattenings hold one interpreter frame per level of
      nesting; their runs take the number of frames the interpreter still
      grants, and end with [RecursionError] when it does not suffice. *)

From Equations Require Import Equations.
From Equations.Prop Require Import Logic.
From Stdlib Require Import String.
From Stdlib Require Import List Arith ZArith Lia Bool Sorted.
Import ListNotations.

Set Implicit Arguments.
Set Warnings "-register-all".

(** ** Pull-based cursors *)

Section Cursor.
Variables (St Elt : Type).
Variable next : St -> option Elt * St.

(** The object after [n] calls of [__next__]. *)
Fixpoint advance_n (n : nat) (st : St) : St :=
  match n with
  | O => st
  | S n' => advance_n n' (snd (next st))
  end.

(** What call number [n] (counting from 0) returns. *)
Definition nth_advance (st : St) (n : nat) : option Elt :=
  fst (next (advance_n n st)).

(** The cursor behaves as the finite sequence [l]: call [n] returns
    element [n] of [l] while there is one, and [StopIteration] on every
    call from number [length l] on. *)
Definition cursor_yields (st : St) (l : list Elt) : Prop :=
  forall n, nth_advance st n = nth_error l n.
End Cursor.

(** ** Exceptions as [option] *)

Definition bind {X Y : Type} (m : option X) (f : X -> option Y) : option Y :=
  match m with
  | Some x => f x
  | None => None
  end.

Notation "x <- m ;; k" := (bind m (fun x => k))
  (at level 61, m at next level, right associativity).
Notation "' p <- m ;; k" := (bind m (fun x => let p := x in k))
  (at level 61, p pattern, m at next level, right associativity).

(** ** Python lists and list iterators *)

Section PyList.
Variable A : Type.

(** [iter(seq)] over a sequence that nobody mutates is the list of the
    elements still to come; an exhausted iterator stays exhausted. *)
Definition iterator := list A.

Definition iter (seq : list A) : iterator := seq.

(** [next(it)]: [None] is [StopIteration]. *)
Definition next (it : iterator) : option (A * iterator) :=
  match it with
  | [] => None
  | x :: it' => Some (x, it')
  end.

(** A generator that has been run as the list of its values, seen as a
    cursor over the values it still has to yield. *)
Definition gen_next (g : list A) : option A * list A :=
  match g with
  | [] => (None, [])
  | x :: g' => (Some x, g')
  end.

(** Index normalisation of [x[i]]: a negative index counts from the end;
    [None] is [IndexError]. *)
Definition norm_index (len i : Z) : option nat :=
  let j := if (i <? 0)%Z then (i + len)%Z else i in
  if ((0 <=? j) && (j <? len))%Z then Some (Z.to_nat j) else None.

(** [l[i]]. *)
Definition getitem (l : list A) (i : Z) : option A :=
  j <- norm_index (Z.of_nat (length l)) i ;; nth_error l j.

Fixpoint list_update (l : list A) (j : nat) (v : A) : list A :=
  match l, j with
  | [], _ => []
  | _ :: r, O => v :: r
  | x :: r, S j' => x :: list_update r j' v
  end.

(** [l[i] = v]. *)
Definition setitem (l : list A) (i : Z) (v : A) : option (list A) :=
  j <- norm_index (Z.of_nat (length l)) i ;; Some (list_update l j v).

(** [l.pop()] where the popped value is dropped. *)
Definition pop (l : list A) : option (list A) :=
  match l with
  | [] => None
  | _ => Some (removelast l)
  end.

(** [for x in xs: s = body(s, x)], stopping at the first exception. *)
Fixpoint for_each (S : Type) (xs : list A) (body : S -> A -> option S) (s : S)
  : option S :=
  match xs with
  | [] => Some s
  | x :: r => s' <- body s x ;; for_each r body s'
  end.
End PyList.

(** [range(start, stop, step)] for a positive [step]. *)
Definition py_range (start stop step : Z) : list Z :=
  map (fun c => (start + Z.of_nat c * step)%Z)
      (seq 0 (Z.to_nat ((stop - start + step - 1) / step))).

(** ** Task 1: chain *)

Section Chain.
Variable A : Type.

Record ChainSequences := mkChain {
  chain_sequences_field : list (list A);
  current_sequence_index : nat;
  current_iterator : iterator A
}.

(** [__init__]. *)
Definition ChainSequences_init (sequences : list (list A)) : ChainSequences :=
  {| chain_sequences_field := sequences;
     current_sequence_index := 0;
     current_iterator :=
       match sequences with
       | [] => iter []
       | s0 :: _ => iter s0
       end |}.

(** [__next__]: the [while True] loop.  Every turn that does not return
    increases [current_sequence_index], which the loop leaves as soon as it
    reaches [len(self.sequences)].  The test [index >= len(self.sequences)]
    and the read [self.sequences[index]] that follows it are one
    [nth_error], which is [None] exactly when the index is [>=] the length. *)
Equations? ChainSequences_next (self : ChainSequences) : option A * ChainSequences
  by wf (length (chain_sequences_field self) - current_sequence_index self) lt :=
  ChainSequences_next self with inspect (next (current_iterator self)) => {
    | exist _ (Some (x, it')) _ :=
        (Some x, {| chain_sequences_field := chain_sequences_field self;
                    current_sequence_index := current_sequence_index self;
                    current_iterator := it' |});
    | exist _ None _ with inspect (nth_error (chain_sequences_field self)
                                     (S (current_sequence_index self))) => {
        | exist _ None _ :=
            (None, {| chain_sequences_field := chain_sequences_field self;
                      current_sequence_index := S (current_sequence_index self);
                      current_iterator := current_iterator self |});
        | exist _ (Some s) Hs :=
            ChainSequences_next
              {| chain_sequences_field := chain_sequences_field self;
                 current_sequence_index := S (current_sequence_index self);
                 current_iterator := iter s |} } }.
Proof.
  change (nth_error (chain_sequences_field self)
            (S (current_sequence_index self)) = Some s) in Hs.
  assert (S (current_sequence_index self) < length (chain_sequences_field self))
    by (apply nth_error_Some; rewrite Hs; discriminate).
  lia.
Qed.

(** The generator: [for seq in sequences: yield from seq]. *)
Fixpoint chain_sequences (sequences : list (list A)) : list A :=
  match sequences with
  | [] => []
  | seq :: rest => seq ++ chain_sequences rest
  end.

(** What is still to come from a chain object. *)
Definition chain_pending (self : ChainSequences) : list A :=
  current_iterator self
    ++ concat (skipn (S (current_sequence_index self)) (chain_sequences_field self)).
End Chain.

(** ** Task 2: zip *)

Section Zip.
Variable A : Type.

Record ZipSequences := mkZip {
  zip_sequences_field : list (list A);
  iterators : list (iterator A);
  index : nat
}.

(** [__init__]. *)
Definition ZipSequences_init (sequences : list (list A)) : ZipSequences :=
  {| zip_sequences_field := sequences;
     iterators := map (@iter A) sequences;
     index := 0 |}.

(** The loop [for it in iterators: result.append(next(it))].  The first
    component is the finished [result], or [None] when a [next(it)] raised
    [StopIteration]; the second is the list of iterators afterwards: those
    before the one that raised have been advanced, the others not. *)
Fixpoint zip_collect (result : list A) (its : list (iterator A))
  : option (list A) * list (iterator A) :=
  match its with
  | [] => (Some result, [])
  | it :: rest =>
      match next it with
      | None => (None, it :: rest)
      | Some (x, it') =>
          let (r, rest') := zip_collect (result ++ [x]) rest in
          (r, it' :: rest')
      end
  end.

(** [__next__]; a tuple is the list of its components. *)
Definition ZipSequences_next (self : ZipSequences) : option (list A) * ZipSequences :=
  let (r, its') := zip_collect [] (iterators self) in
  (r, {| zip_sequences_field := zip_sequences_field self;
         iterators := its';
         index := index self |}).

(** The generator [zip_sequences], suspended at its [yield] or finished. *)
Inductive zip_generator :=
| ZipSuspended (iterators : list (iterator A))
| ZipFinished.

Definition zip_sequences (sequences : list (list A)) : zip_generator :=
  ZipSuspended (map (@iter A) sequences).

(** One resumption: a turn of [while True] up to the [yield], or up to the
    [return] of the handler. *)
Definition zip_sequences_next (g : zip_generator) : option (list A) * zip_generator :=
  match g with
  | ZipFinished => (None, ZipFinished)
  | ZipSuspended its =>
      match zip_collect [] its with
      | (Some t, its') => (Some t, ZipSuspended its')
      | (None, _) => (None, ZipFinished)
      end
  end.

(** [min(len(s) for s in sequences)], 0 for no sequence at all. *)
Definition min_len (sequences : list (list A)) : nat :=
  match sequences with
  | [] => 0
  | s :: rest => fold_right Nat.min (length s) (map (@length A) rest)
  end.

(** The tuple of the elements at position [j], when every sequence has one. *)
Fixpoint column (j : nat) (sequences : list (list A)) : option (list A) :=
  match sequences with
  | [] => Some []
  | s :: rest => x <- nth_error s j ;; t <- column j rest ;; Some (x :: t)
  end.
End Zip.

(** ** Task 3: primes *)

Local Open Scope Z_scope.

(** The inner loop [for j in range(i*i, n, i): is_prime[j] = False]. *)
Definition strike_multiples (n i : Z) (is_prime : list bool) : option (list bool) :=
  for_each (py_range (i * i) n i) (fun a j => setitem a j false) is_prime.

(** One turn of the outer loop. *)
Definition sieve_turn (n : Z) (is_prime : list bool) (i : Z) : option (list bool) :=
  b <- getitem is_prime i ;;
  if b then strike_multiples n i is_prime else Some is_prime.

(** The last loop: [for i in ...: if is_prime[i]: yield i]. *)
Fixpoint yield_unmarked (is_prime : list bool) (candidates : list Z) : option (list Z) :=
  match candidates with
  | [] => Some []
  | i :: r =>
      b <- getitem is_prime i ;;
      out <- yield_unmarked is_prime r ;;
      Some (if b then i :: out else out)
  end.

(** [generate_primes(n)].  [int(math.sqrt(n))] is [Z.sqrt n]: the double
    square root is exact to the integer part for every [n] below 2^52, far
    beyond any [n] for which the list [[True] * n] can exist. *)
Definition generate_primes (n : Z) : option (list Z) :=
  if n <=? 1 then Some []
  else if n <=? 2 then Some [1]
  else
    is_prime <- setitem (repeat true (Z.to_nat n)) 0 false ;;
    is_prime <- setitem is_prime 1 false ;;
    is_prime <- for_each (py_range 2 (Z.sqrt n + 1) 1) (sieve_turn n) is_prime ;;
    out <- yield_unmarked is_prime (py_range 2 n 1) ;;
    Some (1 :: out).

(** [v] has no divisor in [[2, v)]. *)
Definition no_divisor (v : Z) : Prop :=
  forall d, 2 <= d < v -> ~ (d | v).

Local Close Scope Z_scope.

(** ** Task 4: combinations *)

Section Combinations.
Variable A : Type.
Variable sequence : list A.
Variable k : Z.

(** The body of [_combine(start, current)] after its first test: the loop
    [for i in range(start, n)], from index [i] on, with [n = len(sequence)].
    The list [current] is one object that the loop appends to and pops from,
    so it is threaded through: the result is the list of the tuples yielded
    and [current] as the loop leaves it.  The recursive call
    [_combine(i + 1, current)] is the test [len(current) == k], which
    yields a copy of [current], or else the loop from [i + 1]. *)
Equations? combine_loop (i : nat) (current : list A)
  : option (list (list A) * list A) by wf (length sequence - i) lt :=
  combine_loop i current with le_lt_dec (length sequence) i => {
    | left _ := Some ([], current);
    | right _ :=
        x <- nth_error sequence i ;;
        let current1 := current ++ [x] in
        '(ys, current2) <-
           (if (Z.of_nat (length current1) =? k)%Z
            then Some ([current1], current1)
            else combine_loop (S i) current1) ;;
        current3 <- pop current2 ;;
        '(zs, current4) <- combine_loop (S i) current3 ;;
        Some (ys ++ zs, current4) }.
Proof. all: lia. Qed.

(** [_combine(start, current)]. *)
Definition _combine (start : nat) (current : list A)
  : option (list (list A) * list A) :=
  if (Z.of_nat (length current) =? k)%Z
  then Some ([current], current)
  else combine_loop start current.

(** [generate_combinations(sequence, k)]: the tuples yielded. *)
Definition generate_combinations : option (list (list A)) :=
  let n := Z.of_nat (length sequence) in
  if ((n <? k) || (k <=? 0))%Z then Some []
  else '(ys, _) <- _combine 0 [] ;; Some ys.
End Combinations.

(** Binomial coefficients, by Pascal's rule. *)
Fixpoint binomial (n k : nat) : nat :=
  match n, k with
  | _, O => 1
  | O, S _ => 0
  | S n', S k' => binomial n' k' + binomial n' k
  end.

(** Lexicographic order on index selections. *)
Inductive lex_lt : list nat -> list nat -> Prop :=
| lex_lt_nil : forall y ys, lex_lt [] (y :: ys)
| lex_lt_head : forall x xs y ys, x < y -> lex_lt (x :: xs) (y :: ys)
| lex_lt_tail : forall x xs ys, lex_lt xs ys -> lex_lt (x :: xs) (x :: ys).

(** [selection] is a strictly increasing choice of [k] indices below [n]. *)
Definition index_selection (n k : nat) (selection : list nat) : Prop :=
  length selection = k /\ StronglySorted lt selection /\ Forall (fun i => i < n) selection.

(** The elements of [sequence] at the indices of [selection]. *)
Fixpoint pick (A : Type) (sequence : list A) (selection : list nat) : option (list A) :=
  match selection with
  | [] => Some []
  | i :: r => x <- nth_error sequence i ;; t <- pick sequence r ;; Some (x :: t)
  end.

(** All [d]-element subsequences of [l], leftmost choices first. *)
Fixpoint subsequences (X : Type) (d : nat) (l : list X) : list (list X) :=
  match d, l with
  | O, _ => [[]]
  | S _, [] => []
  | S d', x :: r => map (cons x) (subsequences d' r) ++ subsequences d r
  end.

(** ** Task 5: flatten *)

(** Python values, as far as flattening tells them apart: lists are
    containers; numbers, strings and tuples are not. *)
Inductive value :=
| VInt (z : Z)
| VStr (s : string)
| VTuple (items : list value)
| VList (items : list value).

(** [isinstance(element, list)]. *)
Definition isinstance_list (element : value) : bool :=
  match element with
  | VList _ => true
  | _ => false
  end.

(** The number of loop turns a value can still cause. *)
Fixpoint value_weight (v : value) : nat :=
  match v with
  | VList items =>
      2 + (fix sum (l : list value) : nat :=
             match l with
             | [] => 0
             | x :: r => value_weight x + sum r
             end) items
  | _ => 1
  end.

Definition list_weight (l : list value) : nat :=
  fold_right (fun x acc => value_weight x + acc) 0 l.

(** A frame [(list, current_index)] of [self.stack]. *)
Definition frame := (list value * nat)%type.

Definition frame_weight (f : frame) : nat :=
  S (list_weight (skipn (snd f) (fst f))).

Definition stack_weight (stack : list frame) : nat :=
  fold_right (fun f acc => frame_weight f + acc) 0 stack.

(** The state of a [FlattenIterator] is its stack; the head of the list is
    the top [self.stack[-1]], [append] is [cons] and [pop] drops the head. *)
Definition FlattenIterator := list frame.

(** [__init__]. *)
Definition FlattenIterator_init (nested_list : list value) : FlattenIterator :=
  [(nested_list, 0)].

(** [__next__]: the loop [while self.stack].  [nth_error current_list index]
    is [None] exactly when [index >= len(current_list)]. *)
Equations? FlattenIterator_next (stack : FlattenIterator)
  : option value * FlattenIterator by wf (stack_weight stack) lt :=
  FlattenIterator_next [] := (None, []);
  FlattenIterator_next ((current_list, index) :: rest)
    with inspect (nth_error current_list index) => {
      | exist _ None _ := FlattenIterator_next rest;
      | exist _ (Some (VList items)) _ :=
          FlattenIterator_next ((items, 0) :: (current_list, S index) :: rest);
      | exist _ (Some element) _ :=
          (Some element, (current_list, S index) :: rest) }.
Proof.
  - assert (Hs : forall (l : list value) i x,
               nth_error l i = Some x ->
               list_weight (skipn i l) = value_weight x + list_weight (skipn (S i) l)).
    { induction l as [|y l IHl]; destruct i; simpl; intros x Hx; try discriminate.
      - inversion Hx. reflexivity.
      - apply IHl. exact Hx. }
    assert (Hw : value_weight (VList items) = 2 + list_weight items).
    { reflexivity. }
    unfold stack_weight. cbn [fold_right]. unfold frame_weight. cbn [fst snd].
    change (match current_list with [] => [] | _ :: l => skipn index0 l end)
      with (skipn (S index0) current_list).
    rewrite (Hs _ _ _ e), Hw. lia.
  - unfold stack_weight. cbn [fold_right]. unfold frame_weight. lia.
Qed.

(** The values that the body of the generator yields when it runs to its
    end:
    [for element in nested_list: if isinstance(element, list): yield from
    flatten_iterator_generator(element) else: yield element].
    This is the generator with a frame for every level of nesting;
    [flatten_iterator_generator_frames] is its run when the interpreter
    grants only so many frames. *)
Equations? flatten_iterator_generator (nested_list : list value) : list value
  by wf (list_weight nested_list) lt :=
  flatten_iterator_generator [] := [];
  flatten_iterator_generator (VList items :: rest) :=
    flatten_iterator_generator items ++ flatten_iterator_generator rest;
  flatten_iterator_generator (element :: rest) :=
    element :: flatten_iterator_generator rest.
Proof.
  all: match goal with
       | |- _ < S (S (?sum + _)) => change sum with (list_weight items)
       end; lia.
Qed.

(** The leaves of a nested value in depth-first, left-to-right order: a list
    contributes the leaves of its elements, one after the other; anything
    else is a leaf. *)
Fixpoint leaves (v : value) : list value :=
  match v with
  | VList items => flat_map leaves items
  | _ => [v]
  end.

(** What a stack still has to give: frame after frame from the top, the
    flattening of the part of the frame's list that has not been visited. *)
Definition stack_pending (stack : FlattenIterator) : list value :=
  flat_map (fun f : frame => flatten_iterator_generator (skipn (snd f) (fst f))) stack.

(** ** Vocabulary of the sieve *)

Local Open Scope Z_scope.

(** [x] has a divisor in [[2, x)]. *)
Definition composite (x : Z) : Prop :=
  exists d, 2 <= d < x /\ (d | x).

(** The marker array [a] after the turns of the outer loop for the candidates
    in [visited]: it has [n] entries, only numbers with a proper divisor are
    struck, and every multiple [>= p * p] of a visited prime [p] is struck. *)
Definition sieve_inv (n : Z) (visited : list Z) (a : list bool) : Prop :=
  Z.of_nat (length a) = n
  /\ (forall x, 2 <= x < n -> getitem a x = Some false -> composite x)
  /\ (forall p x, In p visited -> no_divisor p -> 2 <= x < n ->
                  p * p <= x -> (p | x) -> getitem a x = Some false).

(** The test of the last loop, [if is_prime[i]], with an absent entry read
    as false. *)
Definition unmarked (a : list bool) (i : Z) : bool :=
  match getitem a i with
  | Some true => true
  | _ => false
  end.

Local Close Scope Z_scope.


(** ** The recursive flattenings and the frames they need *)

(** The loop of the generator, [for element in nested_list], where [enter]
    is the resumption of the generator made for a nested list.  The result is
    the list of the values yielded and whether the run ended with
    [RecursionError]: once that is raised inside [yield from], nothing more
    is yielded. *)
Fixpoint flatten_generator_loop (enter : list value -> list value * bool)
         (nested_list : list value) : list value * bool :=
  match nested_list with
  | [] => ([], false)
  | element :: rest =>
      match element with
      | VList items =>
          let (ys, raised) := enter items in
          if raised then (ys, true)
          else let (zs, r) := flatten_generator_loop enter rest in (ys ++ zs, r)
      | _ =>
          let (zs, r) := flatten_generator_loop enter rest in (element :: zs, r)
      end
  end.

(** [flatten_iterator_generator(nested_list)] run to its end when the
    interpreter grants [frames] more frames.  Running the body of a
    generator takes a frame, and the generators delegated to by [yield from]
    are all on the stack at once, one per level of nesting: with no frame
    left the body is not entered and [RecursionError] is raised. *)
Fixpoint flatten_iterator_generator_frames (frames : nat) (nested_list : list value)
  : list value * bool :=
  match frames with
  | O => ([], true)
  | S frames' =>
      flatten_generator_loop (flatten_iterator_generator_frames frames') nested_list
  end.

(** The loop of [flatten_recursive(lst)] of [demonstrate_alternatives],
    [for item in lst], with the list [result] built so far:
    [result.extend(flatten_recursive(item))] for a list, where [call] is that
    recursive call, [result.append(item)] for anything else, and
    [return result] at the end.  [None] is [RecursionError], which loses
    [result]. *)
Fixpoint flatten_recursive_loop (call : list value -> option (list value))
         (result : list value) (lst : list value) : option (list value) :=
  match lst with
  | [] => Some result
  | item :: rest =>
      match item with
      | VList items =>
          sub <- call items ;; flatten_recursive_loop call (result ++ sub) rest
      | _ => flatten_recursive_loop call (result ++ [item]) rest
      end
  end.

(** [flatten_recursive(lst)] when the interpreter grants [frames] more
    frames: the call takes one, [result = []], then the loop. *)
Fixpoint flatten_recursive (frames : nat) (lst : list value) : option (list value) :=
  match frames with
  | O => None
  | S frames' => flatten_recursive_loop (flatten_recursive frames') [] lst
  end.

(** The list that the loop of [demonstrate_all_tasks] builds in
    [large_nested], for [levels] turns starting at the number [i]: each turn
    appends the number and a new empty list and goes on inside that list, so
    [levels = 1000] and [i = 0] give [[0, [1, [2, ... [999, []] ... ]]]]. *)
Fixpoint large_nested (levels : nat) (i : Z) : list value :=
  match levels with
  | O => []
  | S levels' => [VInt i; VList (large_nested levels' (i + 1))]
  end.

(** ** Nesting depth *)

(** How deep lists are nested inside a value: 0 for anything that is not a
    list, one more than its deepest element for a list. *)
Fixpoint value_depth (v : value) : nat :=
  match v with
  | VList items =>
      S ((fix deepest (l : list value) : nat :=
            match l with
            | [] => 0
            | x :: r => Nat.max (value_depth x) (deepest r)
            end) items)
  | _ => 0
  end.

Definition list_depth (l : list value) : nat :=
  fold_right (fun x acc => Nat.max (value_depth x) acc) 0 l.

(** Every frame of the stack holds a list whose nesting depth, added to the
    number of frames under it, stays within [bound]. *)
Fixpoint stack_within (bound : nat) (stack : FlattenIterator) : Prop :=
  match stack with
  | [] => True
  | f :: rest => list_depth (fst f) + length rest <= bound /\ stack_within bound rest
  end.


(** * Properties *)

(** ** Cursors *)

Section CursorFacts.
Variables (St Elt : Type).
Variable step : St -> option Elt * St.

Lemma nth_advance_S st n :
  nth_advance step st (S n) = nth_advance step (snd (step st)) n.
Proof. reflexivity. Qed.

Lemma advance_n_add n m st :
  advance_n step (n + m) st = advance_n step m (advance_n step n st).
Proof.
  revert st; induction n as [|n IH]; intros st; simpl; [reflexivity | apply IH].
Qed.

Lemma nth_advance_add st n m :
  nth_advance step st (n + m) = nth_advance step (advance_n step n st) m.
Proof. unfold nth_advance. rewrite advance_n_add. reflexivity. Qed.

Lemma cursor_yields_nil st :
  (forall n, nth_advance step st n = None) <-> cursor_yields step st [].
Proof.
  unfold cursor_yields; split; intros H n; rewrite H; destruct n; reflexivity.
Qed.

Lemma cursor_yields_cons st st' x l :
  step st = (Some x, st') -> cursor_yields step st' l -> cursor_yields step st (x :: l).
Proof.
  intros Hn Hy [|n].
  - unfold nth_advance; simpl. rewrite Hn. reflexivity.
  - rewrite nth_advance_S, Hn. simpl. apply Hy.
Qed.

(** Two states from which [step] does the same behave the same. *)
Lemma nth_advance_same_step st1 st2 n :
  step st1 = step st2 -> nth_advance step st1 n = nth_advance step st2 n.
Proof.
  intros H. destruct n as [|n].
  - unfold nth_advance; simpl. rewrite H. reflexivity.
  - rewrite !nth_advance_S, H. reflexivity.
Qed.

Lemma cursor_yields_same_step st1 st2 l :
  step st1 = step st2 -> cursor_yields step st2 l -> cursor_yields step st1 l.
Proof.
  intros H Hy n. rewrite (nth_advance_same_step _ H). apply Hy.
Qed.

(** A state that [StopIteration] leaves as it is stays exhausted. *)
Lemma nth_advance_stuck st n :
  step st = (None, st) -> nth_advance step st n = None.
Proof.
  intros H. induction n as [|n IH].
  - unfold nth_advance; simpl. rewrite H. reflexivity.
  - rewrite nth_advance_S, H. exact IH.
Qed.

Lemma cursor_yields_inj st l1 l2 :
  cursor_yields step st l1 -> cursor_yields step st l2 -> l1 = l2.
Proof.
  intros H1 H2. apply nth_error_ext. intros n. rewrite <- H1, <- H2. reflexivity.
Qed.

(** A cursor that behaves as a finite sequence never resumes after its
    first [StopIteration]. *)
Lemma cursor_yields_terminal st l n m :
  cursor_yields step st l ->
  nth_advance step st n = None -> n <= m -> nth_advance step st m = None.
Proof.
  intros Hy Hn Hle. rewrite Hy in *. apply nth_error_None.
  apply nth_error_None in Hn. lia.
Qed.
End CursorFacts.

Lemma gen_next_yields (A : Type) (g : list A) : cursor_yields (@gen_next A) g g.
Proof.
  induction g as [|x g IH].
  - apply cursor_yields_nil. intros n. apply nth_advance_stuck. reflexivity.
  - eapply cursor_yields_cons; [reflexivity | exact IH].
Qed.

Lemma skipn_nth_error_None (X : Type) (l : list X) n :
  nth_error l n = None -> skipn n l = [].
Proof. intros H. apply skipn_all2. apply nth_error_None. exact H. Qed.

Lemma skipn_nth_error_Some (X : Type) (l : list X) n x :
  nth_error l n = Some x -> skipn n l = x :: skipn (S n) l.
Proof.
  revert l; induction n as [|n IH]; intros [|y l] H; simpl in *; try discriminate.
  - congruence.
  - rewrite (IH l H). reflexivity.
Qed.

(** ** Chain *)

(** Brings the equation recorded by a [with inspect (next _)] clause in line
    with what is known about the iterator. *)
Ltac use_next Hc :=
  match goal with
  | E : next _ = _ |- _ =>
      let E' := fresh "E" in
      pose proof E as E'; rewrite Hc in E'; simpl in E'
  end.

Section ChainFacts.
Variable A : Type.
Implicit Types (self : ChainSequences A).

Lemma ChainSequences_next_cons self x it' :
  current_iterator self = x :: it' ->
  ChainSequences_next self =
    (Some x, {| chain_sequences_field := chain_sequences_field self;
                current_sequence_index := current_sequence_index self;
                current_iterator := it' |}).
Proof.
  intros Hc. funelim (ChainSequences_next self); use_next Hc; congruence.
Qed.

Lemma ChainSequences_next_last self :
  current_iterator self = [] ->
  nth_error (chain_sequences_field self) (S (current_sequence_index self)) = None ->
  ChainSequences_next self =
    (None, {| chain_sequences_field := chain_sequences_field self;
              current_sequence_index := S (current_sequence_index self);
              current_iterator := current_iterator self |}).
Proof.
  intros Hc Hn. funelim (ChainSequences_next self).
  - use_next Hc; discriminate.
  - congruence.
  - reflexivity.
Qed.

Lemma ChainSequences_next_move self s :
  current_iterator self = [] ->
  nth_error (chain_sequences_field self) (S (current_sequence_index self)) = Some s ->
  ChainSequences_next self =
    ChainSequences_next
      {| chain_sequences_field := chain_sequences_field self;
         current_sequence_index := S (current_sequence_index self);
         current_iterator := iter s |}.
Proof.
  intros Hc Hn. funelim (ChainSequences_next self).
  - use_next Hc; discriminate.
  - assert (s0 = s) by congruence. subst s0. reflexivity.
  - congruence.
Qed.

Lemma ChainSequences_exhausted seqs idx n :
  nth_error seqs (S idx) = None ->
  nth_advance (@ChainSequences_next A) (mkChain seqs idx []) n = None.
Proof.
  revert idx. induction n as [|n IHn]; intros idx Hn.
  - unfold nth_advance; simpl.
    rewrite (ChainSequences_next_last (mkChain seqs idx []) eq_refl Hn). reflexivity.
  - rewrite nth_advance_S.
    rewrite (ChainSequences_next_last (mkChain seqs idx []) eq_refl Hn). simpl.
    apply IHn. apply nth_error_None. apply nth_error_None in Hn. lia.
Qed.

(** From any state, a chain object yields what is left of the current
    sequence, then the sequences after it, then stops for good. *)
Lemma ChainSequences_yields_pending self :
  cursor_yields (@ChainSequences_next A) self (chain_pending self).
Proof.
  remember (length (chain_sequences_field self) - current_sequence_index self) as m eqn:Hm.
  revert self Hm. induction m as [m IHm] using lt_wf_ind. intros self Hm.
  destruct self as [seqs idx cur]. simpl in Hm.
  induction cur as [|x cur IHc].
  - destruct (nth_error seqs (S idx)) as [s|] eqn:Hn.
    + assert (Hlt : S idx < length seqs) by (apply nth_error_Some; congruence).
      eapply cursor_yields_same_step.
      { apply (@ChainSequences_next_move (mkChain seqs idx []) s eq_refl Hn). }
      replace (chain_pending (mkChain seqs idx []))
        with (chain_pending (mkChain seqs (S idx) (iter s))).
      * apply (IHm (length seqs - S idx)); [lia | reflexivity].
      * unfold chain_pending; simpl.
        change (match seqs with [] => [] | _ :: l => skipn idx l end)
          with (skipn (S idx) seqs).
        rewrite (skipn_nth_error_Some _ _ Hn). reflexivity.
    + replace (chain_pending (mkChain seqs idx [])) with (@nil A).
      * apply cursor_yields_nil. intros n.
        apply ChainSequences_exhausted. exact Hn.
      * unfold chain_pending; simpl.
        change (match seqs with [] => [] | _ :: l => skipn idx l end)
          with (skipn (S idx) seqs).
        rewrite (skipn_nth_error_None _ _ Hn). reflexivity.
  - eapply cursor_yields_cons; [|exact IHc].
    apply ChainSequences_next_cons. reflexivity.
Qed.

Lemma chain_sequences_concat (sequences : list (list A)) :
  chain_sequences sequences = concat sequences.
Proof.
  induction sequences as [|s r IH]; simpl; [reflexivity | rewrite IH; reflexivity].
Qed.

Lemma ChainSequences_init_pending (sequences : list (list A)) :
  chain_pending (ChainSequences_init sequences) = concat sequences.
Proof. destruct sequences as [|s r]; reflexivity. Qed.
End ChainFacts.

(** C6.  For every list of finite sequences, the generator [chain_sequences]
    yields exactly their concatenation, and the [ChainSequences] iterator
    returns the elements of that concatenation one call after the other and
    raises [StopIteration] on every call after the last; with no sequence at
    all the first call already stops, and empty sequences contribute nothing:
    chaining [[], [1], []] gives [1]. *)
Theorem chain_is_concatenation (A : Type) (sequences : list (list A)) :
  chain_sequences sequences = concat sequences
  /\ cursor_yields (@ChainSequences_next A) (ChainSequences_init sequences)
       (concat sequences)
  /\ (forall n, nth_advance (@ChainSequences_next A) (ChainSequences_init []) n = None)
  /\ chain_sequences [[]; [1]; []] = [1]
  /\ cursor_yields (@ChainSequences_next nat) (ChainSequences_init [[]; [1]; []]) [1]
  /\ chain_sequences [[1; 2; 3]; [4]; [5]] = [1; 2; 3; 4; 5].
Proof.
  assert (H : forall (X : Type) (ss : list (list X)),
             cursor_yields (@ChainSequences_next X) (ChainSequences_init ss) (concat ss)).
  { intros X ss. rewrite <- ChainSequences_init_pending.
    apply ChainSequences_yields_pending. }
  split; [apply chain_sequences_concat|].
  split; [apply H|].
  split; [apply cursor_yields_nil; apply (H A [])|].
  split; [reflexivity|].
  split; [apply (H nat [[]; [1]; []]) | reflexivity].
Qed.


(** ** Zip *)

Section ZipFacts.
Variable A : Type.
Implicit Types (its : list (iterator A)) (result t : list A).

Lemma column_tl j its : column j (map (@tl A) its) = column (S j) its.
Proof.
  induction its as [|it r IH]; simpl; [reflexivity|].
  rewrite IH. destruct it; [destruct j|]; reflexivity.
Qed.

Lemma column_Some j its :
  Forall (fun s => j < length s) its -> exists t, column j its = Some t.
Proof.
  induction 1 as [|s r Hs _ [t Ht]]; simpl; [eexists; reflexivity|].
  destruct (nth_error s j) as [x|] eqn:E.
  - rewrite Ht. simpl. eexists; reflexivity.
  - apply nth_error_None in E. lia.
Qed.

Lemma column_None j its :
  Exists (fun s => length s <= j) its -> column j its = None.
Proof.
  induction 1 as [s r Hs | s r _ IH]; simpl.
  - apply nth_error_None in Hs. rewrite Hs. reflexivity.
  - rewrite IH. destruct (nth_error s j); reflexivity.
Qed.

(** The tuple at position [j] holds, in order, element [j] of every
    sequence. *)
Lemma column_Forall2 j its t :
  column j its = Some t <-> Forall2 (fun s x => nth_error s j = Some x) its t.
Proof.
  revert t; induction its as [|s r IH]; intros t; simpl.
  - split; intros H; [injection H as <-; constructor | inversion H; reflexivity].
  - split.
    + destruct (nth_error s j) as [x|] eqn:E; simpl; [|discriminate].
      destruct (column j r) as [t'|]; simpl; [|discriminate].
      intros H; injection H as <-. constructor; [exact E | apply IH; reflexivity].
    + intros H. inversion H as [|s' x r' t' Hx Ht]; subst.
      rewrite Hx. simpl. apply IH in Ht. rewrite Ht. reflexivity.
Qed.

(** All iterators have an element: the loop returns the tuple of their
    heads and leaves every iterator advanced by one. *)
Lemma zip_collect_Some its result t :
  column 0 its = Some t ->
  zip_collect result its = (Some (result ++ t), map (@tl A) its).
Proof.
  revert result t; induction its as [|it r IH]; intros result t; simpl.
  - intros H; injection H as <-. rewrite app_nil_r. reflexivity.
  - destruct it as [|x it']; simpl; [discriminate|].
    destruct (column 0 r) as [t'|]; simpl; [|discriminate].
    intros H; injection H as <-.
    rewrite (IH (result ++ [x]) t' eq_refl), <- app_assoc. reflexivity.
Qed.

(** Some iterator is exhausted: the loop raises, and some iterator is
    still exhausted afterwards. *)
Lemma zip_collect_None its result :
  column 0 its = None ->
  exists its', zip_collect result its = (None, its') /\ column 0 its' = None.
Proof.
  revert result; induction its as [|it r IH]; intros result; simpl; [discriminate|].
  destruct it as [|x it']; simpl.
  - intros _. exists ([] :: r). split; reflexivity.
  - destruct (column 0 r) as [t'|] eqn:E; simpl; [discriminate|].
    intros _. destruct (IH (result ++ [x]) eq_refl) as [its' [H1 H2]].
    rewrite H1. exists (it' :: its'). split; [reflexivity|].
    simpl. rewrite H2. destruct it'; reflexivity.
Qed.

Lemma ZipSequences_next_Some ss its ix t :
  column 0 its = Some t ->
  ZipSequences_next (mkZip ss its ix) = (Some t, mkZip ss (map (@tl A) its) ix).
Proof.
  intros H. unfold ZipSequences_next; simpl.
  rewrite (zip_collect_Some its [] H). reflexivity.
Qed.

Lemma ZipSequences_next_None ss its ix :
  column 0 its = None ->
  exists its', ZipSequences_next (mkZip ss its ix) = (None, mkZip ss its' ix)
               /\ column 0 its' = None.
Proof.
  intros H. destruct (zip_collect_None its [] H) as [its' [H1 H2]].
  exists its'. unfold ZipSequences_next; simpl. rewrite H1. split; [reflexivity | exact H2].
Qed.

(** An exhausted component keeps the iterator object stopped. *)
Lemma ZipSequences_stopped ss its ix n :
  column 0 its = None ->
  nth_advance (@ZipSequences_next A) (mkZip ss its ix) n = None.
Proof.
  revert its; induction n as [|n IH]; intros its H;
    destruct (ZipSequences_next_None ss its ix H) as [its' [H1 H2]].
  - unfold nth_advance; simpl. rewrite H1. reflexivity.
  - rewrite nth_advance_S, H1. simpl. apply IH. exact H2.
Qed.

Lemma ZipSequences_running ss ix n its :
  Forall (fun s => n < length s) its ->
  nth_advance (@ZipSequences_next A) (mkZip ss its ix) n = column n its.
Proof.
  revert its; induction n as [|n IH]; intros its H.
  - destruct (column_Some H) as [t Ht]. unfold nth_advance; simpl.
    rewrite (ZipSequences_next_Some ss its ix Ht), Ht. reflexivity.
  - assert (H0 : Forall (fun s => 0 < length s) its)
      by (eapply Forall_impl; [|exact H]; simpl; intros; lia).
    destruct (column_Some H0) as [t Ht].
    rewrite nth_advance_S, (ZipSequences_next_Some ss its ix Ht). simpl.
    rewrite IH, column_tl; [reflexivity|].
    apply Forall_map. eapply Forall_impl; [|exact H].
    intros [|x s]; simpl; lia.
Qed.

Lemma ZipSequences_past ss ix n its :
  Exists (fun s => length s <= n) its ->
  nth_advance (@ZipSequences_next A) (mkZip ss its ix) n = None.
Proof.
  revert its; induction n as [|n IH]; intros its H.
  - apply ZipSequences_stopped. apply column_None. exact H.
  - destruct (column 0 its) as [t|] eqn:Ht.
    + rewrite nth_advance_S, (ZipSequences_next_Some ss its ix Ht). simpl.
      apply IH. apply Exists_map. eapply Exists_impl; [|exact H].
      intros [|x s]; simpl; lia.
    + apply ZipSequences_stopped. exact Ht.
Qed.

Lemma zip_sequences_finished n :
  nth_advance (@zip_sequences_next A) (ZipFinished A) n = None.
Proof. apply nth_advance_stuck. reflexivity. Qed.

(** Call by call, the generator returns what the iterator object returns. *)
Lemma zip_forms_agree ss ix n its :
  nth_advance (@zip_sequences_next A) (ZipSuspended its) n
  = nth_advance (@ZipSequences_next A) (mkZip ss its ix) n.
Proof.
  revert its; induction n as [|n IH]; intros its.
  - unfold nth_advance, ZipSequences_next; simpl.
    destruct (zip_collect [] its) as [[t|] its']; reflexivity.
  - destruct (column 0 its) as [t|] eqn:Ht.
    + rewrite !nth_advance_S, (ZipSequences_next_Some ss its ix Ht). simpl.
      rewrite (zip_collect_Some its [] Ht). simpl. apply IH.
    + rewrite (ZipSequences_stopped ss its ix (S n) Ht).
      destruct (zip_collect_None its [] Ht) as [its' [H1 H2]].
      rewrite nth_advance_S. simpl. rewrite H1. simpl.
      apply zip_sequences_finished.
Qed.

Lemma min_len_lt (sequences : list (list A)) j :
  sequences <> [] ->
  (j < min_len sequences <-> Forall (fun s => j < length s) sequences).
Proof.
  destruct sequences as [|s r]; [congruence|]. intros _. simpl.
  induction r as [|s' r IH]; simpl.
  - split; [intros H; repeat constructor; exact H | intros H; inversion H; assumption].
  - split.
    + intros H. apply Nat.min_glb_lt_iff in H. destruct H as [H1 H2].
      apply IH in H2. inversion H2; subst. repeat constructor; assumption.
    + intros H. inversion H as [|? ? Hs Hr]; subst. inversion Hr; subst.
      apply Nat.min_glb_lt_iff. split; [assumption|].
      apply IH. constructor; assumption.
Qed.

Lemma min_len_le (sequences : list (list A)) j :
  sequences <> [] ->
  min_len sequences <= j -> Exists (fun s => length s <= j) sequences.
Proof.
  intros Hne Hle. apply Exists_exists.
  destruct (Forall_Exists_dec (fun s : list A => j < length s)
              (fun s => lt_dec j (length s)) sequences) as [Hall | Hex].
  - apply min_len_lt in Hall; [lia | exact Hne].
  - apply Exists_exists in Hex. destruct Hex as [s [Hin Hs]].
    exists s. split; [exact Hin | lia].
Qed.
End ZipFacts.

(** C5.  For every non-empty list of finite sequences, the [ZipSequences]
    iterator and the [zip_sequences] generator return, on call [j] for every
    [j] below the minimum of the lengths, the tuple made in order of element
    [j] of each sequence, and raise [StopIteration] on every call from
    number [min(len(s))] on: the shortest input ends the output, whatever is
    left in the others. *)
Theorem zip_stops_at_shortest (A : Type) (sequences : list (list A)) (j : nat) :
  sequences <> [] ->
  (j < min_len sequences ->
     exists t,
       Forall2 (fun s x => nth_error s j = Some x) sequences t
       /\ nth_advance (@ZipSequences_next A) (ZipSequences_init sequences) j = Some t
       /\ nth_advance (@zip_sequences_next A) (zip_sequences sequences) j = Some t)
  /\ (min_len sequences <= j ->
        nth_advance (@ZipSequences_next A) (ZipSequences_init sequences) j = None
        /\ nth_advance (@zip_sequences_next A) (zip_sequences sequences) j = None).
Proof.
  intros Hne. unfold ZipSequences_init, zip_sequences.
  rewrite (zip_forms_agree sequences 0 j (map (@iter A) sequences)). unfold iter. rewrite map_id. split.
  - intros Hlt. apply min_len_lt in Hlt; [|exact Hne].
    destruct (column_Some Hlt) as [t Ht]. exists t.
    rewrite ZipSequences_running by exact Hlt.
    split; [apply column_Forall2; exact Ht | split; exact Ht].
  - intros Hle. apply min_len_le in Hle; [|exact Hne].
    rewrite ZipSequences_past by exact Hle. split; reflexivity.
Qed.

(** The theorem at [[1,2,3], [4,5], [6]]: call 0 returns [(1,4,6)], call 1
    stops. *)
Lemma zip_stops_at_shortest_witness :
  [[1; 2; 3]; [4; 5]; [6]] <> []
  /\ 0 < min_len [[1; 2; 3]; [4; 5]; [6]]
  /\ (exists t,
        Forall2 (fun s x => nth_error s 0 = Some x) [[1; 2; 3]; [4; 5]; [6]] t
        /\ nth_advance (@ZipSequences_next nat)
             (ZipSequences_init [[1; 2; 3]; [4; 5]; [6]]) 0 = Some t
        /\ nth_advance (@zip_sequences_next nat)
             (zip_sequences [[1; 2; 3]; [4; 5]; [6]]) 0 = Some t)
  /\ min_len [[1; 2; 3]; [4; 5]; [6]] <= 1
  /\ nth_advance (@ZipSequences_next nat)
       (ZipSequences_init [[1; 2; 3]; [4; 5]; [6]]) 1 = None
  /\ nth_advance (@zip_sequences_next nat)
       (zip_sequences [[1; 2; 3]; [4; 5]; [6]]) 1 = None.
Proof.
  assert (Hne : [[1; 2; 3]; [4; 5]; [6]] <> []) by discriminate.
  assert (H0 : 0 < min_len [[1; 2; 3]; [4; 5]; [6]]) by (simpl; lia).
  assert (H1 : min_len [[1; 2; 3]; [4; 5]; [6]] <= 1) by (simpl; lia).
  split; [exact Hne|]. split; [exact H0|].
  split; [exact (proj1 (@zip_stops_at_shortest nat _ 0 Hne) H0)|].
  split; [exact H1|].
  exact (proj2 (@zip_stops_at_shortest nat _ 1 Hne) H1).
Defined.

(** C1 on the code.  Without any input sequence the loop over the iterators
    has nothing to advance, so nothing raises [StopIteration]: every call of
    the [ZipSequences] iterator, and every resumption of the [zip_sequences]
    generator, returns the empty tuple. *)
Theorem zip_of_nothing_never_stops (A : Type) (n : nat) :
  nth_advance (@ZipSequences_next A) (ZipSequences_init []) n = Some []
  /\ nth_advance (@zip_sequences_next A) (zip_sequences []) n = Some [].
Proof.
  assert (H : nth_advance (@ZipSequences_next A) (mkZip [] [] 0) n = Some []).
  { induction n as [|n IH]; [reflexivity|]. rewrite nth_advance_S. exact IH. }
  split; [exact H|].
  unfold zip_sequences. simpl. rewrite (zip_forms_agree [] 0 n []). exact H.
Qed.


(** ** Flatten *)

Unset Implicit Arguments.

Lemma list_weight_skipn (l : list value) i x :
  nth_error l i = Some x ->
  list_weight (skipn i l) = value_weight x + list_weight (skipn (S i) l).
Proof.
  intros H. rewrite (skipn_nth_error_Some _ _ H). reflexivity.
Qed.

Lemma value_weight_pos v : 0 < value_weight v.
Proof. destruct v; simpl; lia. Qed.

Lemma FlattenIterator_next_nil : FlattenIterator_next [] = (None, []).
Proof. simp FlattenIterator_next. reflexivity. Qed.

Lemma FlattenIterator_next_pop current_list index rest :
  nth_error current_list index = None ->
  FlattenIterator_next ((current_list, index) :: rest) = FlattenIterator_next rest.
Proof.
  intros H. funelim (FlattenIterator_next ((current_list, index) :: rest));
    congruence.
Qed.

Lemma FlattenIterator_next_push current_list index rest items :
  nth_error current_list index = Some (VList items) ->
  FlattenIterator_next ((current_list, index) :: rest)
  = FlattenIterator_next ((items, 0) :: (current_list, S index) :: rest).
Proof.
  intros H. funelim (FlattenIterator_next ((current_list, index) :: rest));
    congruence.
Qed.

Lemma FlattenIterator_next_leaf current_list index rest element :
  nth_error current_list index = Some element ->
  isinstance_list element = false ->
  FlattenIterator_next ((current_list, index) :: rest)
  = (Some element, (current_list, S index) :: rest).
Proof.
  intros H Hl. funelim (FlattenIterator_next ((current_list, index) :: rest));
    try congruence.
  assert (element = VList items) by congruence. subst. discriminate.
Qed.

Lemma flatten_iterator_generator_nil : flatten_iterator_generator [] = [].
Proof. simp flatten_iterator_generator. reflexivity. Qed.

Lemma flatten_iterator_generator_list items rest :
  flatten_iterator_generator (VList items :: rest)
  = flatten_iterator_generator items ++ flatten_iterator_generator rest.
Proof. simp flatten_iterator_generator. reflexivity. Qed.

Lemma flatten_iterator_generator_leaf element rest :
  isinstance_list element = false ->
  flatten_iterator_generator (element :: rest)
  = element :: flatten_iterator_generator rest.
Proof.
  intros H. destruct element; simp flatten_iterator_generator; try reflexivity.
  discriminate.
Qed.

Lemma flatten_iterator_generator_app l1 l2 :
  flatten_iterator_generator (l1 ++ l2)
  = flatten_iterator_generator l1 ++ flatten_iterator_generator l2.
Proof.
  induction l1 as [|x l1 IH]; simpl.
  - rewrite flatten_iterator_generator_nil. reflexivity.
  - destruct (isinstance_list x) eqn:E.
    + destruct x; try discriminate.
      rewrite !flatten_iterator_generator_list, IH, app_assoc. reflexivity.
    + rewrite !(flatten_iterator_generator_leaf x _ E), IH. reflexivity.
Qed.

(** The recursive generator lists the leaves depth first, left to right. *)
Lemma flatten_iterator_generator_leaves nested_list :
  flatten_iterator_generator nested_list = leaves (VList nested_list).
Proof.
  remember (list_weight nested_list) as w eqn:Hw.
  revert nested_list Hw. induction w as [w IH] using lt_wf_ind.
  intros [|x rest] Hw.
  - rewrite flatten_iterator_generator_nil. reflexivity.
  - assert (Hx : list_weight (x :: rest) = value_weight x + list_weight rest)
      by reflexivity.
    pose proof (value_weight_pos x) as Hpos.
    assert (Hrest : flatten_iterator_generator rest = leaves (VList rest))
      by (apply (IH (list_weight rest)); [lia | reflexivity]).
    destruct (isinstance_list x) eqn:E.
    + destruct x as [| | |items]; try discriminate.
      rewrite flatten_iterator_generator_list, Hrest.
      rewrite (IH (list_weight items)); [reflexivity | | reflexivity].
      rewrite Hw, Hx. change (value_weight (VList items)) with (2 + list_weight items). lia.
    + rewrite (flatten_iterator_generator_leaf x _ E), Hrest.
      destruct x; try discriminate; reflexivity.
Qed.

(** From any stack, the iterator yields what the stack still has to give
    and then stops for good. *)
Lemma FlattenIterator_yields_pending stack :
  cursor_yields FlattenIterator_next stack (stack_pending stack).
Proof.
  remember (stack_weight stack) as w eqn:Hw.
  revert stack Hw. induction w as [w IH] using lt_wf_ind.
  intros [|[current_list index] rest] Hw.
  - apply cursor_yields_nil. intros n. apply nth_advance_stuck.
    apply FlattenIterator_next_nil.
  - assert (Hs : w = S (list_weight (skipn index current_list)) + stack_weight rest)
      by exact Hw.
    change (cursor_yields FlattenIterator_next ((current_list, index) :: rest)
              (flatten_iterator_generator (skipn index current_list)
                 ++ stack_pending rest)).
    destruct (nth_error current_list index) as [element|] eqn:Hn.
    + pose proof (list_weight_skipn _ _ _ Hn) as Hsk.
      rewrite (skipn_nth_error_Some _ _ Hn).
      destruct (isinstance_list element) eqn:E.
      * destruct element as [| | |items]; try discriminate.
        eapply cursor_yields_same_step;
          [apply (FlattenIterator_next_push _ _ rest _ Hn)|].
        rewrite flatten_iterator_generator_list, <- app_assoc.
        apply (IH (stack_weight ((items, 0) :: (current_list, S index) :: rest)));
          [|reflexivity].
        rewrite Hs, Hsk.
        change (stack_weight ((items, 0) :: (current_list, S index) :: rest))
          with (S (list_weight items)
                + (S (list_weight (skipn (S index) current_list)) + stack_weight rest)).
        change (value_weight (VList items)) with (2 + list_weight items). lia.
      * rewrite (flatten_iterator_generator_leaf element _ E). simpl.
        eapply cursor_yields_cons;
          [apply (FlattenIterator_next_leaf _ _ rest _ Hn E)|].
        apply (IH (stack_weight ((current_list, S index) :: rest))); [|reflexivity].
        rewrite Hs, Hsk.
        change (stack_weight ((current_list, S index) :: rest))
          with (S (list_weight (skipn (S index) current_list)) + stack_weight rest).
        pose proof (value_weight_pos element). lia.
    + rewrite (skipn_nth_error_None _ _ Hn), flatten_iterator_generator_nil. simpl.
      eapply cursor_yields_same_step;
        [apply (FlattenIterator_next_pop _ _ rest Hn)|].
      apply (IH (stack_weight rest)); [|reflexivity].
      rewrite Hs. lia.
Qed.

Lemma FlattenIterator_init_pending nested_list :
  stack_pending (FlattenIterator_init nested_list)
  = flatten_iterator_generator nested_list.
Proof. unfold stack_pending, FlattenIterator_init. simpl. apply app_nil_r. Qed.

Lemma FlattenIterator_yields nested_list :
  cursor_yields FlattenIterator_next (FlattenIterator_init nested_list)
    (flatten_iterator_generator nested_list).
Proof.
  rewrite <- FlattenIterator_init_pending. apply FlattenIterator_yields_pending.
Qed.


(** C7.  For every nested list, the stack-based [FlattenIterator] returns
    the leaves in depth-first, left-to-right order and then stops: nothing
    for an empty list, nothing for [[[]]], and 1, 2, 3, 4, 5 for
    [1, 2, [3, [4], 5]]. *)
Theorem flatten_iterator_depth_first (nested_list : list value) :
  cursor_yields FlattenIterator_next (FlattenIterator_init nested_list)
    (leaves (VList nested_list))
  /\ cursor_yields FlattenIterator_next (FlattenIterator_init []) []
  /\ cursor_yields FlattenIterator_next
       (FlattenIterator_init [VList [VList []]]) []
  /\ cursor_yields FlattenIterator_next
       (FlattenIterator_init
          [VInt 1; VInt 2; VList [VInt 3; VList [VInt 4]; VInt 5]])
       [VInt 1; VInt 2; VInt 3; VInt 4; VInt 5].
Proof.
  assert (H : forall l, cursor_yields FlattenIterator_next (FlattenIterator_init l)
                          (leaves (VList l))).
  { intros l. rewrite <- flatten_iterator_generator_leaves.
    apply FlattenIterator_yields. }
  split; [apply H|].
  split; [apply (H [])|].
  split; [apply (H [VList [VList []]])|].
  apply (H [VInt 1; VInt 2; VList [VInt 3; VList [VInt 4]; VInt 5]]).
Qed.

(** C10.  Only lists are containers for the two flatten forms.  An element
    that is not a list, be it a tuple or a string with elements of its own,
    comes out whole, between what comes before it and what comes after it;
    an element that is a list is replaced by what its own elements give.
    For the iterator object: it returns a finite sequence on what comes
    before, one on what comes after, and on the whole list the first of them,
    then the element itself, then the second. *)
Theorem flatten_only_lists_are_containers
        (pre post items : list value) (element : value) :
  isinstance_list element = false ->
  (flatten_iterator_generator (pre ++ element :: post)
   = flatten_iterator_generator pre ++ element :: flatten_iterator_generator post
   /\ exists out_pre out_post,
        cursor_yields FlattenIterator_next (FlattenIterator_init pre) out_pre
        /\ cursor_yields FlattenIterator_next (FlattenIterator_init post) out_post
        /\ cursor_yields FlattenIterator_next
             (FlattenIterator_init (pre ++ element :: post))
             (out_pre ++ element :: out_post))
  /\ (flatten_iterator_generator (pre ++ VList items :: post)
      = flatten_iterator_generator pre ++ flatten_iterator_generator items
          ++ flatten_iterator_generator post
      /\ exists out_pre out_items out_post,
           cursor_yields FlattenIterator_next (FlattenIterator_init pre) out_pre
           /\ cursor_yields FlattenIterator_next (FlattenIterator_init items) out_items
           /\ cursor_yields FlattenIterator_next (FlattenIterator_init post) out_post
           /\ cursor_yields FlattenIterator_next
                (FlattenIterator_init (pre ++ VList items :: post))
                (out_pre ++ out_items ++ out_post)).
Proof.
  intros Hleaf. split.
  - assert (E : flatten_iterator_generator (pre ++ element :: post)
                = flatten_iterator_generator pre
                    ++ element :: flatten_iterator_generator post).
    { rewrite flatten_iterator_generator_app,
        (flatten_iterator_generator_leaf element post Hleaf). reflexivity. }
    split; [exact E|].
    exists (flatten_iterator_generator pre), (flatten_iterator_generator post).
    split; [apply FlattenIterator_yields|].
    split; [apply FlattenIterator_yields|].
    rewrite <- E. apply FlattenIterator_yields.
  - assert (E : flatten_iterator_generator (pre ++ VList items :: post)
                = flatten_iterator_generator pre
                    ++ flatten_iterator_generator items
                    ++ flatten_iterator_generator post).
    { rewrite flatten_iterator_generator_app, flatten_iterator_generator_list.
      reflexivity. }
    split; [exact E|].
    exists (flatten_iterator_generator pre), (flatten_iterator_generator items),
           (flatten_iterator_generator post).
    split; [apply FlattenIterator_yields|].
    split; [apply FlattenIterator_yields|].
    split; [apply FlattenIterator_yields|].
    rewrite <- E. apply FlattenIterator_yields.
Qed.

(** The theorem at [[0, (1, [2]), "ab"]] and at [[0, [1, [2]], "ab"]]: the
    tuple, list inside and all, is yielded and returned as it is; the list is
    opened. *)
Lemma flatten_only_lists_are_containers_witness :
  isinstance_list (VTuple [VInt 1; VList [VInt 2]]) = false
  /\ (flatten_iterator_generator
        ([VInt 0] ++ VTuple [VInt 1; VList [VInt 2]] :: [VStr "ab"])
      = flatten_iterator_generator [VInt 0]
          ++ VTuple [VInt 1; VList [VInt 2]] :: flatten_iterator_generator [VStr "ab"]
      /\ exists out_pre out_post,
           cursor_yields FlattenIterator_next (FlattenIterator_init [VInt 0]) out_pre
           /\ cursor_yields FlattenIterator_next
                (FlattenIterator_init [VStr "ab"]) out_post
           /\ cursor_yields FlattenIterator_next
                (FlattenIterator_init
                   ([VInt 0] ++ VTuple [VInt 1; VList [VInt 2]] :: [VStr "ab"]))
                (out_pre ++ VTuple [VInt 1; VList [VInt 2]] :: out_post))
  /\ (flatten_iterator_generator
        ([VInt 0] ++ VList [VInt 1; VList [VInt 2]] :: [VStr "ab"])
      = flatten_iterator_generator [VInt 0]
          ++ flatten_iterator_generator [VInt 1; VList [VInt 2]]
          ++ flatten_iterator_generator [VStr "ab"]
      /\ exists out_pre out_items out_post,
           cursor_yields FlattenIterator_next (FlattenIterator_init [VInt 0]) out_pre
           /\ cursor_yields FlattenIterator_next
                (FlattenIterator_init [VInt 1; VList [VInt 2]]) out_items
           /\ cursor_yields FlattenIterator_next
                (FlattenIterator_init [VStr "ab"]) out_post
           /\ cursor_yields FlattenIterator_next
                (FlattenIterator_init
                   ([VInt 0] ++ VList [VInt 1; VList [VInt 2]] :: [VStr "ab"]))
                (out_pre ++ out_items ++ out_post)).
Proof.
  assert (Hleaf : isinstance_list (VTuple [VInt 1; VList [VInt 2]]) = false)
    by reflexivity.
  split; [exact Hleaf|].
  exact (flatten_only_lists_are_containers
           [VInt 0] [VStr "ab"] [VInt 1; VList [VInt 2]]
           (VTuple [VInt 1; VList [VInt 2]]) Hleaf).
Defined.

(** ** Exhaustion *)

Lemma ZipSequences_terminal (A : Type) (self : ZipSequences A) n m :
  nth_advance (@ZipSequences_next A) self n = None -> n <= m ->
  nth_advance (@ZipSequences_next A) self m = None.
Proof.
  intros Hn Hle. replace m with (n + (m - n)) by lia.
  rewrite nth_advance_add. unfold nth_advance in Hn.
  destruct (advance_n (@ZipSequences_next A) n self) as [ss its ix].
  destruct (column 0 its) as [t|] eqn:Ht.
  - rewrite (ZipSequences_next_Some ss its ix Ht) in Hn. discriminate.
  - apply ZipSequences_stopped. exact Ht.
Qed.

(** C9.  For each of the three iterator classes and from any state of the
    object: once a call of [__next__] has raised [StopIteration], every later
    call raises it too; no element is returned after the first exhaustion. *)
Theorem exhaustion_is_terminal (A : Type) (chain : ChainSequences A)
        (zip : ZipSequences A) (flatten : FlattenIterator) (n m : nat) :
  n <= m ->
  (nth_advance (@ChainSequences_next A) chain n = None ->
   nth_advance (@ChainSequences_next A) chain m = None)
  /\ (nth_advance (@ZipSequences_next A) zip n = None ->
      nth_advance (@ZipSequences_next A) zip m = None)
  /\ (nth_advance FlattenIterator_next flatten n = None ->
      nth_advance FlattenIterator_next flatten m = None).
Proof.
  intros Hle. split; [|split]; intros Hn.
  - exact (@cursor_yields_terminal _ _ _ _ _ n m
             (ChainSequences_yields_pending chain) Hn Hle).
  - exact (ZipSequences_terminal A zip n m Hn Hle).
  - exact (@cursor_yields_terminal _ _ _ _ _ n m
             (FlattenIterator_yields_pending flatten) Hn Hle).
Qed.

(** The theorem at [ChainSequences([1], [2])], [ZipSequences([1, 2], [3])] and
    [FlattenIterator([1, [2]])]: stopped at call 2, still stopped at call 5. *)
Lemma exhaustion_is_terminal_witness :
  2 <= 5
  /\ nth_advance (@ChainSequences_next nat) (ChainSequences_init [[1]; [2]]) 5 = None
  /\ nth_advance (@ZipSequences_next nat) (ZipSequences_init [[1; 2]; [3]]) 5 = None
  /\ nth_advance FlattenIterator_next
       (FlattenIterator_init [VInt 1; VList [VInt 2]]) 5 = None.
Proof.
  assert (Hle : 2 <= 5) by lia.
  destruct (exhaustion_is_terminal nat (ChainSequences_init [[1]; [2]])
              (ZipSequences_init [[1; 2]; [3]])
              (FlattenIterator_init [VInt 1; VList [VInt 2]]) 2 5 Hle)
    as [Hc [Hz Hf]].
  split; [exact Hle|].
  split; [apply Hc; reflexivity|].
  split; [apply Hz; reflexivity | apply Hf; reflexivity].
Defined.


(** ** Combinations *)

Section CombinationFacts.
Variable A : Type.
Variable sequence : list A.
Variable k : Z.

Lemma combine_loop_done i current :
  length sequence <= i ->
  combine_loop sequence k i current = Some ([], current).
Proof.
  intros H. simp combine_loop.
  destruct (le_lt_dec (length sequence) i) as [Hle|Hlt]; [reflexivity | lia].
Qed.

Lemma combine_loop_turn i current :
  i < length sequence ->
  combine_loop sequence k i current =
    (x <- nth_error sequence i ;;
     let current1 := current ++ [x] in
     '(ys, current2) <-
        (if (Z.of_nat (length current1) =? k)%Z
         then Some ([current1], current1)
         else combine_loop sequence k (S i) current1) ;;
     current3 <- pop current2 ;;
     '(zs, current4) <- combine_loop sequence k (S i) current3 ;;
     Some (ys ++ zs, current4)).
Proof.
  intros H. rewrite combine_loop_equation_1.
  destruct (le_lt_dec (length sequence) i) as [Hle|Hlt]; [lia | reflexivity].
Qed.

Lemma pop_snoc (current : list A) x : pop (current ++ [x]) = Some current.
Proof.
  unfold pop. rewrite removelast_last. destruct current; reflexivity.
Qed.

(** With [d >= 1] elements still to choose, the loop from index [i] yields
    [current] extended by every [d]-element subsequence of [sequence[i:]],
    leftmost choices first, and hands [current] back as it got it. *)
Lemma combine_loop_subsequences (K : nat) :
  k = Z.of_nat K ->
  forall m i current,
    m = length sequence - i ->
    length current < K ->
    combine_loop sequence k i current
    = Some (map (app current)
              (subsequences (K - length current) (skipn i sequence)),
            current).
Proof.
  intros Hk. induction m as [|m IH]; intros i current Hm Hlen.
  - rewrite combine_loop_done by lia.
    rewrite skipn_all2 by lia.
    destruct (K - length current) as [|d] eqn:Hd; [lia | reflexivity].
  - assert (Hi : i < length sequence) by lia.
    rewrite (combine_loop_turn i current Hi).
    destruct (nth_error sequence i) as [x|] eqn:Hx;
      [|apply nth_error_None in Hx; lia].
    rewrite (skipn_nth_error_Some _ _ Hx). cbn [bind].
    assert (Hl1 : length (current ++ [x]) = S (length current))
      by (rewrite length_app; simpl; lia).
    destruct (K - length current) as [|d] eqn:Hd; [lia|].
    assert (Hrest : combine_loop sequence k (S i) current
                    = Some (map (app current)
                              (subsequences (S d) (skipn (S i) sequence)),
                            current)).
    { rewrite (IH (S i) current) by lia. rewrite Hd. reflexivity. }
    cbv zeta.
    destruct (Z.of_nat (length (current ++ [x])) =? k)%Z eqn:Ek.
    + apply Z.eqb_eq in Ek.
      assert (d = 0) by lia. subst d.
      cbn [bind]. rewrite pop_snoc. cbn [bind]. rewrite Hrest. cbn [bind].
      destruct (skipn (S i) sequence); reflexivity.
    + apply Z.eqb_neq in Ek.
      rewrite (IH (S i) (current ++ [x])) by lia.
      cbn [bind]. rewrite pop_snoc. cbn [bind]. rewrite Hrest. cbn [bind].
      rewrite Hl1. replace (K - S (length current)) with d by lia.
      destruct d as [|d']; [lia|].
      cbn [subsequences]. rewrite map_app, map_map.
      do 2 f_equal. f_equal. apply map_ext. intros s.
      rewrite <- app_assoc. reflexivity.
Qed.

Lemma generate_combinations_subsequences (K : nat) :
  k = Z.of_nat K -> 0 < K <= length sequence ->
  generate_combinations sequence k = Some (subsequences K sequence).
Proof.
  intros Hk HK. unfold generate_combinations, _combine.
  destruct ((Z.of_nat (length sequence) <? k) || (k <=? 0))%Z eqn:E.
  - apply orb_true_iff in E. destruct E as [E|E]; [apply Z.ltb_lt in E | apply Z.leb_le in E]; lia.
  - simpl length. destruct (Z.of_nat 0 =? k)%Z eqn:E0;
      [apply Z.eqb_eq in E0; lia|].
    rewrite (combine_loop_subsequences K Hk _ 0 [] eq_refl) by (simpl; lia).
    cbn [bind]. simpl length. rewrite Nat.sub_0_r. simpl skipn.
    f_equal. rewrite <- (map_id (subsequences K sequence)) at 2.
    apply map_ext. reflexivity.
Qed.
End CombinationFacts.


(** *** Subsequences of a strictly increasing list *)

Lemma StronglySorted_concat (X : Type) (R : X -> X -> Prop) (l1 l2 : list X) :
  StronglySorted R l1 -> StronglySorted R l2 ->
  (forall a b, In a l1 -> In b l2 -> R a b) ->
  StronglySorted R (l1 ++ l2).
Proof.
  intros H1 H2 Hc. induction H1 as [|a l1 H1 IH Ha]; simpl; [exact H2|].
  constructor.
  - apply IH. intros x y Hx Hy. apply Hc; [right; exact Hx | exact Hy].
  - apply Forall_app. split; [exact Ha|].
    apply Forall_forall. intros y Hy. apply Hc; [left; reflexivity | exact Hy].
Qed.

Lemma StronglySorted_image (X Y : Type) (R : X -> X -> Prop) (Q : Y -> Y -> Prop)
      (f : X -> Y) (l : list X) :
  (forall a b, R a b -> Q (f a) (f b)) ->
  StronglySorted R l -> StronglySorted Q (map f l).
Proof.
  intros Hf H. induction H as [|a l H IH Ha]; simpl; constructor; [exact IH|].
  apply Forall_map. eapply Forall_impl; [|exact Ha]. intros b. apply Hf.
Qed.

Lemma StronglySorted_filter (X : Type) (R : X -> X -> Prop) (f : X -> bool) (l : list X) :
  StronglySorted R l -> StronglySorted R (filter f l).
Proof.
  intros H. induction H as [|a l H IH Ha]; simpl; [constructor|].
  destruct (f a); [|exact IH]. constructor; [exact IH|].
  apply Forall_forall. intros b Hb. apply filter_In in Hb.
  rewrite Forall_forall in Ha. apply Ha. tauto.
Qed.

Lemma subsequences_length (X : Type) (d : nat) (l : list X) :
  length (subsequences d l) = binomial (length l) d.
Proof.
  revert d; induction l as [|x r IH]; intros [|d]; simpl; try reflexivity.
  rewrite length_app, length_map, !IH. reflexivity.
Qed.

Lemma subsequences_In_fwd (d : nat) (l s : list nat) :
  StronglySorted lt l -> In s (subsequences d l) ->
  length s = d /\ StronglySorted lt s /\ Forall (fun i => In i l) s.
Proof.
  intros Hl. revert d s. induction Hl as [|x r Hr IH Hx]; intros [|d] s Hin;
    simpl in Hin.
  - destruct Hin as [<-|[]]. repeat constructor.
  - destruct Hin.
  - destruct Hin as [<-|[]]. repeat constructor.
  - apply in_app_or in Hin. destruct Hin as [Hin|Hin].
    + apply in_map_iff in Hin. destruct Hin as [s' [<- Hs']].
      destruct (IH d s' Hs') as [H1 [H2 H3]].
      split; [simpl; congruence|]. split.
      * constructor; [exact H2|].
        rewrite Forall_forall in *. intros i Hi. apply Hx. apply H3. exact Hi.
      * constructor; [left; reflexivity|].
        eapply Forall_impl; [|exact H3]. intros i Hi. right. exact Hi.
    + destruct (IH (S d) s Hin) as [H1 [H2 H3]].
      split; [exact H1|]. split; [exact H2|].
      eapply Forall_impl; [|exact H3]. intros i Hi. right. exact Hi.
Qed.

Lemma subsequences_In_bwd (l : list nat) :
  StronglySorted lt l ->
  forall s, StronglySorted lt s -> Forall (fun i => In i l) s ->
            In s (subsequences (length s) l).
Proof.
  intros Hl. induction Hl as [|x r Hr IH Hx]; intros s Hs Hin.
  - destruct s as [|y s]; [left; reflexivity|].
    inversion Hin as [|? ? Hy _]. destruct Hy.
  - destruct s as [|y s]; [left; reflexivity|].
    inversion Hs as [|? ? Hs' Hy]; subst.
    inversion Hin as [|? ? Hyin Hsin]; subst.
    rewrite Forall_forall in Hx, Hy, Hsin.
    assert (Htail : forall i, In i s -> In i r).
    { intros i Hi. destruct (Hsin i Hi) as [<-|Hir]; [|exact Hir].
      pose proof (Hy x Hi) as Hlt.
      destruct Hyin as [Heq|Hyr]; [lia | pose proof (Hx y Hyr); lia]. }
    simpl. apply in_or_app. destruct Hyin as [<-|Hyr].
    + left. apply in_map. apply IH; [exact Hs'|].
      apply Forall_forall. exact Htail.
    + right. apply (IH (y :: s)); [exact Hs|].
      constructor; [exact Hyr | apply Forall_forall; exact Htail].
Qed.

Lemma subsequences_lex_sorted (l : list nat) :
  StronglySorted lt l ->
  forall d, StronglySorted lex_lt (subsequences d l).
Proof.
  intros Hl. induction Hl as [|x r Hr IH Hx]; intros [|d]; simpl;
    try (repeat constructor).
  apply StronglySorted_concat.
  - apply StronglySorted_image with (R := lex_lt); [|apply IH].
    intros a b Hab. apply lex_lt_tail. exact Hab.
  - apply IH.
  - intros a b Ha Hb. apply in_map_iff in Ha. destruct Ha as [a' [<- _]].
    destruct (subsequences_In_fwd (S d) r b Hr Hb) as [Hlen [_ Hall]].
    destruct b as [|y b]; [discriminate|].
    apply lex_lt_head. rewrite Forall_forall in Hx. apply Hx.
    inversion Hall; assumption.
Qed.

Lemma seq_StronglySorted (start len : nat) : StronglySorted lt (seq start len).
Proof.
  revert start; induction len as [|len IH]; intros start; simpl; constructor.
  - apply IH.
  - apply Forall_forall. intros i Hi. apply in_seq in Hi. lia.
Qed.

(** Picking the same positions in the list of indices and in the sequence
    gives corresponding selections and tuples. *)
Lemma subsequences_pick (A : Type) (sequence : list A) (d : nat)
      (indices : list nat) (elements : list A) :
  Forall2 (fun i x => nth_error sequence i = Some x) indices elements ->
  Forall2 (fun selection tuple => pick sequence selection = Some tuple)
    (subsequences d indices) (subsequences d elements).
Proof.
  intros H. revert d. induction H as [|i x indices elements Hix _ IH];
    intros [|d]; simpl; try (repeat constructor).
  apply Forall2_app; [|apply IH].
  specialize (IH d). induction IH as [|s t ss ts Hst _ IHst]; simpl; constructor.
  - simpl. rewrite Hix, Hst. reflexivity.
  - exact IHst.
Qed.

Lemma seq_indexes (A : Type) (sequence : list A) :
  Forall2 (fun i x => nth_error sequence i = Some x)
    (seq 0 (length sequence)) sequence.
Proof.
  assert (H : forall (pre l : list A),
             Forall2 (fun i x => nth_error (pre ++ l) i = Some x)
               (seq (length pre) (length l)) l).
  { intros pre l; revert pre. induction l as [|x l IH]; intros pre; simpl; constructor.
    - rewrite nth_error_app2 by lia. rewrite Nat.sub_diag. reflexivity.
    - specialize (IH (pre ++ [x])).
      rewrite <- app_assoc, length_app, Nat.add_1_r in IH. exact IH. }
  exact (H [] sequence).
Qed.

(** C3.  For a sequence of length [n] and [0 < k <= n],
    [generate_combinations(sequence, k)] yields one tuple for each strictly
    increasing selection of [k] indices below [n], in the lexicographic order
    of the selections, each tuple holding the elements at the selected
    indices in that order; that makes [C(n, k)] tuples.  On [[1, 2, 3]] and
    [k = 2] the tuples are (1,2), (1,3), (2,3). *)
Theorem combinations_enumerate_selections (A : Type) (sequence : list A) (k : Z) :
  (0 < k <= Z.of_nat (length sequence))%Z ->
  (exists out selections,
     generate_combinations sequence k = Some out
     /\ (forall s, In s selections <->
                   index_selection (length sequence) (Z.to_nat k) s)
     /\ StronglySorted lex_lt selections
     /\ Forall2 (fun selection tuple => pick sequence selection = Some tuple)
          selections out
     /\ length out = binomial (length sequence) (Z.to_nat k))
  /\ generate_combinations [1; 2; 3] 2%Z = Some [[1; 2]; [1; 3]; [2; 3]].
Proof.
  intros Hk. split; [|reflexivity].
  assert (HK : k = Z.of_nat (Z.to_nat k)) by lia.
  assert (HK' : 0 < Z.to_nat k <= length sequence) by lia.
  set (n := length sequence) in *. set (K := Z.to_nat k) in *.
  exists (subsequences K sequence), (subsequences K (seq 0 n)).
  assert (Hsorted : StronglySorted lt (seq 0 n)) by apply seq_StronglySorted.
  split; [|split; [|split; [|split]]].
  - apply generate_combinations_subsequences; assumption.
  - intros s. unfold index_selection. split.
    + intros Hin. destruct (subsequences_In_fwd K (seq 0 n) s Hsorted Hin)
        as [H1 [H2 H3]].
      split; [exact H1|]. split; [exact H2|].
      eapply Forall_impl; [|exact H3]. intros i Hi. apply in_seq in Hi. apply Hi.
    + intros [H1 [H2 H3]]. rewrite <- H1.
      apply subsequences_In_bwd; [exact Hsorted | exact H2|].
      eapply Forall_impl; [|exact H3]. intros i Hi. apply in_seq.
      split; [apply Nat.le_0_l | exact Hi].
  - apply subsequences_lex_sorted. exact Hsorted.
  - apply subsequences_pick. apply seq_indexes.
  - apply subsequences_length.
Qed.

(** The theorem at [['a', 'b', 'c', 'd']] and [k = 3]. *)
Lemma combinations_enumerate_selections_witness :
  (0 < 3 <= Z.of_nat (length [VStr "a"; VStr "b"; VStr "c"; VStr "d"]))%Z
  /\ exists out selections,
       generate_combinations [VStr "a"; VStr "b"; VStr "c"; VStr "d"] 3%Z = Some out
       /\ (forall s, In s selections <-> index_selection 4 3 s)
       /\ StronglySorted lex_lt selections
       /\ Forall2 (fun selection tuple =>
                     pick [VStr "a"; VStr "b"; VStr "c"; VStr "d"] selection
                     = Some tuple) selections out
       /\ length out = 4.
Proof.
  assert (H : (0 < 3 <= Z.of_nat (length [VStr "a"; VStr "b"; VStr "c"; VStr "d"]))%Z)
    by (simpl; lia).
  split; [exact H|].
  exact (proj1 (combinations_enumerate_selections value
                  [VStr "a"; VStr "b"; VStr "c"; VStr "d"] 3%Z H)).
Defined.

(** C4.  For [k <= 0] or [k > len(sequence)], [generate_combinations] yields
    nothing and raises nothing. *)
Theorem combinations_invalid_k_is_empty (A : Type) (sequence : list A) (k : Z) :
  (k <= 0 \/ k > Z.of_nat (length sequence))%Z ->
  generate_combinations sequence k = Some [].
Proof.
  intros Hk. unfold generate_combinations.
  destruct ((Z.of_nat (length sequence) <? k) || (k <=? 0))%Z eqn:E; [reflexivity|].
  apply orb_false_iff in E. destruct E as [E1 E2].
  apply Z.ltb_ge in E1. apply Z.leb_gt in E2. lia.
Qed.

(** The theorem at [[1, 2, 3]] with [k = 0], [k = -2] and [k = 4]. *)
Lemma combinations_invalid_k_is_empty_witness :
  generate_combinations [1; 2; 3] 0%Z = Some []
  /\ generate_combinations [1; 2; 3] (-2)%Z = Some []
  /\ generate_combinations [1; 2; 3] 4%Z = Some [].
Proof.
  split; [|split].
  - apply (combinations_invalid_k_is_empty nat [1; 2; 3] 0%Z). left. lia.
  - apply (combinations_invalid_k_is_empty nat [1; 2; 3] (-2)%Z). left. lia.
  - apply (combinations_invalid_k_is_empty nat [1; 2; 3] 4%Z). right. simpl. lia.
Defined.


(** ** Primes *)

Local Open Scope Z_scope.

(** *** Lists indexed by integers *)

Lemma norm_index_in (len i : Z) :
  0 <= i < len -> norm_index len i = Some (Z.to_nat i).
Proof.
  intros H. unfold norm_index.
  destruct (i <? 0) eqn:E; [apply Z.ltb_lt in E; lia|].
  destruct ((0 <=? i) && (i <? len)) eqn:E'; [reflexivity|].
  apply andb_false_iff in E'.
  destruct E' as [E'|E']; [apply Z.leb_gt in E' | apply Z.ltb_ge in E']; lia.
Qed.

Lemma getitem_in (X : Type) (l : list X) (i : Z) :
  0 <= i < Z.of_nat (length l) -> getitem l i = nth_error l (Z.to_nat i).
Proof. intros H. unfold getitem. rewrite norm_index_in by exact H. reflexivity. Qed.

Lemma getitem_Some (X : Type) (l : list X) (i : Z) :
  0 <= i < Z.of_nat (length l) -> exists x, getitem l i = Some x.
Proof.
  intros H. rewrite getitem_in by exact H.
  destruct (nth_error l (Z.to_nat i)) as [x|] eqn:E; [exists x; reflexivity|].
  apply nth_error_None in E. lia.
Qed.

Lemma setitem_in (X : Type) (l : list X) (i : Z) (v : X) :
  0 <= i < Z.of_nat (length l) ->
  setitem l i v = Some (list_update l (Z.to_nat i) v).
Proof. intros H. unfold setitem. rewrite norm_index_in by exact H. reflexivity. Qed.

Lemma list_update_length (X : Type) (l : list X) (j : nat) (v : X) :
  length (list_update l j v) = length l.
Proof.
  revert j; induction l as [|x l IH]; intros [|j]; simpl; try reflexivity.
  rewrite IH. reflexivity.
Qed.

Lemma list_update_same (X : Type) (l : list X) (j : nat) (v : X) :
  (j < length l)%nat -> nth_error (list_update l j v) j = Some v.
Proof.
  revert j; induction l as [|x l IH]; intros [|j] H; simpl in *; try lia.
  - reflexivity.
  - apply IH. lia.
Qed.

Lemma list_update_other (X : Type) (l : list X) (j j' : nat) (v : X) :
  j <> j' -> nth_error (list_update l j v) j' = nth_error l j'.
Proof.
  revert j j'; induction l as [|x l IH]; intros [|j] [|j'] H; simpl;
    try reflexivity; try congruence.
  apply IH. congruence.
Qed.

Lemma getitem_setitem (X : Type) (l l' : list X) (i : Z) (v : X) :
  0 <= i < Z.of_nat (length l) ->
  setitem l i v = Some l' ->
  length l' = length l
  /\ getitem l' i = Some v
  /\ forall x, 0 <= x < Z.of_nat (length l) -> x <> i -> getitem l' x = getitem l x.
Proof.
  intros Hi Hs. rewrite setitem_in in Hs by exact Hi. injection Hs as <-.
  pose proof (list_update_length X l (Z.to_nat i) v) as Hlen.
  split; [exact Hlen|]. split.
  - rewrite getitem_in by (rewrite Hlen; exact Hi).
    apply list_update_same. lia.
  - intros x Hx Hne. rewrite !getitem_in by (try rewrite Hlen; exact Hx).
    apply list_update_other. lia.
Qed.

(** A loop of assignments [a[j] = False] over indices that exist raises
    nothing, keeps the length, clears the entries assigned to and leaves
    the others alone. *)
Lemma strike_all (js : list Z) (a : list bool) :
  Forall (fun j => 0 <= j < Z.of_nat (length a)) js ->
  exists a',
    for_each js (fun a j => setitem a j false) a = Some a'
    /\ length a' = length a
    /\ forall x, 0 <= x < Z.of_nat (length a) ->
                 (In x js -> getitem a' x = Some false)
                 /\ (~ In x js -> getitem a' x = getitem a x).
Proof.
  revert a; induction js as [|j js IH]; intros a Hjs.
  - exists a. split; [reflexivity|]. split; [reflexivity|].
    intros x _. split; [intros [] | reflexivity].
  - inversion Hjs as [|? ? Hj Hrest]; subst.
    simpl. rewrite (setitem_in bool a j false Hj). cbn [bind].
    destruct (getitem_setitem bool a _ j false Hj (setitem_in bool a j false Hj))
      as [Hlen [Hsame Hother]].
    set (a1 := list_update a (Z.to_nat j) false) in *.
    destruct (IH a1) as [a' [Hrun [Hlen' Hget]]].
    { rewrite Hlen. exact Hrest. }
    exists a'. split; [exact Hrun|]. split; [congruence|].
    intros x Hx. destruct (Hget x) as [Hin Hout]; [rewrite Hlen; exact Hx|].
    destruct (in_dec Z.eq_dec x js) as [Hxin|Hxout].
    + split; [intros _; apply Hin; exact Hxin
             | intros Hn; exfalso; apply Hn; right; exact Hxin].
    + rewrite (Hout Hxout). destruct (Z.eq_dec x j) as [->|Hne].
      * split; [intros _; exact Hsame | intros Hn; exfalso; apply Hn; left; reflexivity].
      * split.
        -- intros [Heq|Hxin]; [congruence | contradiction].
        -- intros _. apply Hother; assumption.
Qed.

(** *** Ranges *)

Lemma py_range_In (start stop step x : Z) :
  0 < step ->
  (In x (py_range start stop step)
   <-> start <= x < stop /\ exists c, 0 <= c /\ x = start + c * step).
Proof.
  intros Hs. unfold py_range. rewrite in_map_iff. split.
  - intros [c [<- Hc]]. apply in_seq in Hc.
    assert (Hlt : Z.of_nat c < (stop - start + step - 1) / step) by lia.
    assert (Hc1 : (Z.of_nat c + 1) * step <= stop - start + step - 1).
    { pose proof (Z.mul_div_le (stop - start + step - 1) step Hs). nia. }
    split; [nia|]. exists (Z.of_nat c). split; [lia | reflexivity].
  - intros [[H1 H2] [c [Hc ->]]]. exists (Z.to_nat c). split; [f_equal; lia|].
    apply in_seq. split; [lia|]. simpl.
    assert (Hq : c + 1 <= (stop - start + step - 1) / step)
      by (apply Z.div_le_lower_bound; [exact Hs | nia]).
    lia.
Qed.

Lemma py_range_step1_In (start stop x : Z) :
  In x (py_range start stop 1) <-> start <= x < stop.
Proof.
  rewrite py_range_In by lia. split; [tauto|].
  intros H. split; [exact H|]. exists (x - start). lia.
Qed.

Lemma py_range_sorted (start stop step : Z) :
  0 < step -> StronglySorted Z.lt (py_range start stop step).
Proof.
  intros Hs. unfold py_range.
  apply StronglySorted_image with (R := lt); [intros a b Hab; nia|].
  apply seq_StronglySorted.
Qed.


(** *** Least divisors *)

Lemma divide_or_not (d x : Z) : 0 < d -> (d | x) \/ ~ (d | x).
Proof.
  intros Hd. destruct (Z.eq_dec (x mod d) 0) as [E|E].
  - left. apply Z.mod_divide; [lia | exact E].
  - right. intros H. apply E. apply Z.mod_divide; [lia | exact H].
Qed.

Lemma least_divisor (x : Z) (b : nat) :
  (forall e, 2 <= e < 2 + Z.of_nat b -> ~ (e | x))
  \/ (exists p, 2 <= p < 2 + Z.of_nat b /\ (p | x)
                /\ forall e, 2 <= e < p -> ~ (e | x)).
Proof.
  induction b as [|b [IH|[p [Hp [Hpx Hleast]]]]].
  - left. intros e He. lia.
  - destruct (divide_or_not (2 + Z.of_nat b) x) as [Hd|Hnd]; [lia| |].
    + right. exists (2 + Z.of_nat b). split; [lia|]. split; [exact Hd|].
      intros e He. apply IH. lia.
    + left. intros e He. destruct (Z.eq_dec e (2 + Z.of_nat b)) as [->|Hne];
        [exact Hnd | apply IH; lia].
  - right. exists p. split; [lia|]. split; assumption.
Qed.

(** A number with a proper divisor has a prime divisor below its square
    root. *)
Lemma composite_prime_factor (x : Z) :
  composite x -> exists p, 2 <= p /\ no_divisor p /\ (p | x) /\ p * p <= x.
Proof.
  intros [d [Hd Hdx]].
  destruct (least_divisor x (Z.to_nat (d - 1))) as [Hnone|[p [Hp [Hpx Hleast]]]].
  - exfalso. apply (Hnone d); [lia | exact Hdx].
  - exists p. split; [lia|]. split; [|split; [exact Hpx|]].
    + intros e He Hep. apply (Hleast e He).
      apply Z.divide_trans with p; assumption.
    + destruct Hpx as [q Hq].
      assert (Hq2 : 2 <= q) by nia.
      destruct (Z_lt_le_dec q p) as [Hlt|Hle]; [|nia].
      exfalso. apply (Hleast q); [lia|]. exists p. lia.
Qed.

(** *** The loops of the sieve *)

Lemma for_each_inv (X S : Type) (P : list X -> S -> Prop)
      (body : S -> X -> option S) (xs : list X) (s0 : S) :
  P [] s0 ->
  (forall visited x s, In x xs -> P visited s ->
                       exists s', body s x = Some s' /\ P (visited ++ [x]) s') ->
  exists s', for_each xs body s0 = Some s' /\ P xs s'.
Proof.
  intros H0 Hstep.
  assert (H : forall rest visited s,
             (forall x, In x rest -> In x xs) -> P visited s ->
             exists s', for_each rest body s = Some s' /\ P (visited ++ rest) s').
  { induction rest as [|x rest IH]; intros visited s Hin HP.
    - exists s. rewrite app_nil_r. split; [reflexivity | exact HP].
    - destruct (Hstep visited x s (Hin x (or_introl eq_refl)) HP) as [s1 [Hb HP1]].
      destruct (IH (visited ++ [x]) s1) as [s' [Hrun HP']].
      { intros y Hy. apply Hin. right. exact Hy. }
      { exact HP1. }
      exists s'. simpl. rewrite Hb. cbn [bind]. rewrite <- app_assoc in HP'.
      split; [exact Hrun | exact HP']. }
  apply (H xs [] s0); [tauto | exact H0].
Qed.

Lemma sieve_turn_inv (n i : Z) (visited : list Z) (a : list bool) :
  2 <= i <= Z.sqrt n ->
  sieve_inv n visited a ->
  exists a', sieve_turn n a i = Some a' /\ sieve_inv n (visited ++ [i]) a'.
Proof.
  intros Hi [Hlen [Hsound Hcompl]].
  assert (Hn : 0 <= n).
  { destruct (Z_lt_le_dec n 0) as [Hneg|Hpos]; [|exact Hpos].
    rewrite (Z.sqrt_neg n Hneg) in Hi. lia. }
  pose proof (Z.sqrt_spec n Hn) as Hsq. cbv zeta in Hsq.
  assert (Hii : i * i <= Z.sqrt n * Z.sqrt n)
    by (apply Z.mul_le_mono_nonneg; lia).
  assert (Hi2 : 2 * i <= i * i) by nia.
  assert (Hin : 2 <= i < n) by lia.
  destruct (getitem_Some bool a i) as [b Hb]; [lia|].
  unfold sieve_turn. rewrite Hb. cbn [bind]. destruct b.
  - destruct (strike_all (py_range (i * i) n i) a) as [a' [Hrun [Hlen' Hget]]].
    { apply Forall_forall. intros j Hj. apply py_range_In in Hj; [nia | lia]. }
    exists a'. split; [exact Hrun|].
    split; [lia|]. split.
    + intros x Hx Hfalse. destruct (Hget x) as [_ Hout]; [lia|].
      destruct (in_dec Z.eq_dec x (py_range (i * i) n i)) as [Hxin|Hxout].
      * apply py_range_In in Hxin; [|lia].
        destruct Hxin as [Hr [c [Hc ->]]].
        exists i. split; [nia|]. exists (i + c). lia.
      * apply Hsound; [exact Hx|]. rewrite <- (Hout Hxout). exact Hfalse.
    + intros p x Hp Hprime Hx Hpp Hpx.
      destruct (Hget x) as [Hinr Hout]; [lia|].
      destruct (in_dec Z.eq_dec x (py_range (i * i) n i)) as [Hxin|Hxout];
        [apply Hinr; exact Hxin|].
      rewrite (Hout Hxout).
      apply in_app_or in Hp. destruct Hp as [Hp|[<-|[]]].
      * apply (Hcompl p x); assumption.
      * exfalso. apply Hxout. apply py_range_In; [lia|].
        split; [lia|]. destruct Hpx as [q Hq]. exists (q - i). split; nia.
  - exists a. split; [reflexivity|]. split; [exact Hlen|]. split; [exact Hsound|].
    intros p x Hp Hprime Hx Hpp Hpx.
    apply in_app_or in Hp. destruct Hp as [Hp|[<-|[]]].
    + apply (Hcompl p x); assumption.
    + exfalso. destruct (Hsound i Hin Hb) as [d [Hd Hdi]].
      apply (Hprime d Hd Hdi).
Qed.

Lemma yield_unmarked_filter (a : list bool) (candidates : list Z) :
  Forall (fun i => 0 <= i < Z.of_nat (length a)) candidates ->
  yield_unmarked a candidates = Some (filter (unmarked a) candidates).
Proof.
  induction 1 as [|i r Hi _ IH]; simpl; [reflexivity|].
  destruct (getitem_Some bool a i Hi) as [b Hb].
  unfold unmarked at 1. rewrite Hb, IH. cbn [bind]. destruct b; reflexivity.
Qed.

(** Once every candidate up to [sqrt n] has had its turn, the entries left
    unmarked are those of the numbers without proper divisor. *)
Lemma sieve_inv_final (n x : Z) (a : list bool) :
  sieve_inv n (py_range 2 (Z.sqrt n + 1) 1) a ->
  2 <= x < n ->
  (unmarked a x = true <-> no_divisor x).
Proof.
  intros [Hlen [Hsound Hcompl]] Hx.
  destruct (getitem_Some bool a x) as [b Hb]; [lia|].
  unfold unmarked. rewrite Hb. split.
  - intros Hb' d Hd Hdx. destruct b; [|discriminate].
    destruct (composite_prime_factor x) as [p [Hp [Hprime [Hpx Hpp]]]].
    { exists d. split; assumption. }
    assert (Hfalse : getitem a x = Some false).
    { apply (Hcompl p x); try assumption.
      apply py_range_step1_In. split; [exact Hp|].
      assert (p <= Z.sqrt x) by (apply Z.sqrt_le_square; lia).
      assert (Z.sqrt x <= Z.sqrt n) by (apply Z.sqrt_le_mono; lia).
      lia. }
    congruence.
  - intros Hprime. destruct b; [reflexivity|]. exfalso.
    destruct (Hsound x Hx Hb) as [d [Hd Hdx]]. apply (Hprime d Hd Hdx).
Qed.

Lemma sieve_inv_init (n : Z) (a0 a1 : list bool) :
  3 <= n ->
  setitem (repeat true (Z.to_nat n)) 0 false = Some a0 ->
  setitem a0 1 false = Some a1 ->
  sieve_inv n [] a1.
Proof.
  intros Hn H0 H1.
  assert (Hlen : Z.of_nat (length (repeat true (Z.to_nat n))) = n)
    by (rewrite repeat_length; lia).
  assert (Hi0 : 0 <= 0 < Z.of_nat (length (repeat true (Z.to_nat n)))) by lia.
  destruct (getitem_setitem bool _ _ 0 false Hi0 H0) as [Hl0 [_ Ho0]].
  assert (Hi1 : 0 <= 1 < Z.of_nat (length a0)) by lia.
  destruct (getitem_setitem bool _ _ 1 false Hi1 H1) as [Hl1 [_ Ho1]].
  split; [lia|]. split.
  - intros x Hx Hfalse. exfalso.
    rewrite Ho1, Ho0 in Hfalse by lia.
    rewrite getitem_in in Hfalse by lia.
    rewrite nth_error_repeat in Hfalse by lia. discriminate.
  - intros p x [].
Qed.

(** C2.  For every integer [n], [generate_primes(n)] raises nothing and
    yields, in strictly ascending order, exactly the value 1 (when [n >= 2])
    and the numbers [v] with [2 <= v < n] that have no divisor in [[2, v)]:
    1 comes first whenever [n >= 2], every value [>= 2] yielded has no proper
    divisor, every prime below [n] is yielded, and for [n <= 1] nothing is
    yielded.  [generate_primes(8)] yields 1, 2, 3, 5, 7 and
    [generate_primes(2)] yields 1. *)
Theorem generate_primes_below (n : Z) :
  (exists out,
     generate_primes n = Some out
     /\ StronglySorted Z.lt out
     /\ (forall v, In v out <-> (v = 1 /\ 2 <= n) \/ (2 <= v < n /\ no_divisor v))
     /\ (2 <= n -> hd_error out = Some 1)
     /\ (n <= 1 -> out = []))
  /\ generate_primes 8 = Some [1; 2; 3; 5; 7]
  /\ generate_primes 2 = Some [1]
  /\ generate_primes 1 = Some []
  /\ generate_primes 0 = Some [].
Proof.
  split; [|repeat split].
  unfold generate_primes.
  destruct (n <=? 1) eqn:E1; [apply Z.leb_le in E1 | apply Z.leb_gt in E1].
  { exists []. split; [reflexivity|]. split; [constructor|].
    split; [|split; [lia | reflexivity]].
    intros v. split; [intros [] | lia]. }
  destruct (n <=? 2) eqn:E2; [apply Z.leb_le in E2 | apply Z.leb_gt in E2].
  { exists [1]. split; [reflexivity|]. split; [repeat constructor|].
    split; [|split; [reflexivity | lia]].
    intros v. simpl. split; [intros [<-|[]]; left; lia | intros [[-> _]|H]; [left; reflexivity | lia]]. }
  assert (Hlen : Z.of_nat (length (repeat true (Z.to_nat n))) = n)
    by (rewrite repeat_length; lia).
  assert (Hi0 : 0 <= 0 < Z.of_nat (length (repeat true (Z.to_nat n)))) by lia.
  pose proof (setitem_in bool (repeat true (Z.to_nat n)) 0 false Hi0) as H0.
  rewrite H0. cbn [bind].
  set (a0 := list_update (repeat true (Z.to_nat n)) (Z.to_nat 0) false) in *.
  assert (Hlen0 : length a0 = length (repeat true (Z.to_nat n)))
    by apply list_update_length.
  assert (Hi1 : 0 <= 1 < Z.of_nat (length a0)) by lia.
  pose proof (setitem_in bool a0 1 false Hi1) as H1.
  rewrite H1. cbn [bind].
  set (a1 := list_update a0 (Z.to_nat 1) false) in *.
  assert (Hn3 : 3 <= n) by lia.
  pose proof (sieve_inv_init n a0 a1 Hn3 H0 H1) as Hinit.
  destruct (for_each_inv Z (list bool) (sieve_inv n) (sieve_turn n)
              (py_range 2 (Z.sqrt n + 1) 1) a1 Hinit) as [a [Hrun Hinv]].
  { intros visited i s Hi Hs. apply sieve_turn_inv; [|exact Hs].
    apply py_range_step1_In in Hi. lia. }
  rewrite Hrun. cbn [bind].
  assert (Hla : Z.of_nat (length a) = n) by apply Hinv.
  rewrite yield_unmarked_filter.
  2:{ apply Forall_forall. intros i Hi. apply py_range_step1_In in Hi. lia. }
  cbn [bind].
  assert (Hmem : forall v, In v (filter (unmarked a) (py_range 2 n 1))
                           <-> 2 <= v < n /\ no_divisor v).
  { intros v. rewrite filter_In, py_range_step1_In. split.
    - intros [Hv Hu]. split; [exact Hv|]. apply (sieve_inv_final n v a Hinv Hv). exact Hu.
    - intros [Hv Hp]. split; [exact Hv|]. apply (sieve_inv_final n v a Hinv Hv). exact Hp. }
  eexists. split; [reflexivity|]. split; [|split; [|split; [reflexivity | lia]]].
  - constructor.
    + apply StronglySorted_filter. apply py_range_sorted. lia.
    + apply Forall_forall. intros v Hv. apply Hmem in Hv. lia.
  - intros v. simpl. rewrite Hmem. split.
    + intros [<-|H]; [left; lia | right; exact H].
    + intros [[-> _]|H]; [left; reflexivity | right; exact H].
Qed.

(** The theorem at [n = 20]. *)
Lemma generate_primes_below_witness :
  exists out,
    generate_primes 20 = Some out
    /\ StronglySorted Z.lt out
    /\ (forall v, In v out <-> (v = 1 /\ 2 <= 20) \/ (2 <= v < 20 /\ no_divisor v))
    /\ (2 <= 20 -> hd_error out = Some 1)
    /\ (20 <= 1 -> out = []).
Proof. exact (proj1 (generate_primes_below 20)). Defined.

Local Close Scope Z_scope.


(** * Further properties *)

(** ** Chain, the object between calls *)

(** X1.  [__next__] never touches [self.sequences] and never moves
    [current_sequence_index] back; when it raises [StopIteration] the index
    has grown and stands at or past the number of sequences, so the object
    keeps changing on every call after exhaustion although the answer does
    not. *)
Theorem ChainSequences_next_index (A : Type) (self : ChainSequences A) :
  chain_sequences_field (snd (ChainSequences_next self)) = chain_sequences_field self
  /\ current_sequence_index self
     <= current_sequence_index (snd (ChainSequences_next self))
  /\ (fst (ChainSequences_next self) = None ->
      current_sequence_index self
      < current_sequence_index (snd (ChainSequences_next self))
      /\ length (chain_sequences_field self)
         <= current_sequence_index (snd (ChainSequences_next self))).
Proof.
  funelim (ChainSequences_next self).
  - simpl. split; [reflexivity|]. split; [lia | discriminate].
  - match goal with
    | IH : _ /\ _ |- _ => destruct IH as [IH1 [IH2 IH3]]
    end.
    cbn [chain_sequences_field current_sequence_index] in IH1, IH2, IH3.
    split; [exact IH1|]. split; [lia|].
    intros Hn. destruct (IH3 Hn) as [IH4 IH5]. split; [lia | exact IH5].
  - simpl. split; [reflexivity|]. split; [lia|]. intros _. split; [lia|].
    match goal with
    | E : nth_error _ _ = None |- _ =>
        let E' := fresh "E" in pose proof E as E'; apply nth_error_None in E'
    end.
    lia.
Qed.

(** The theorem at a chain over [[1]] whose only sequence is used up. *)
Lemma ChainSequences_next_index_witness :
  fst (ChainSequences_next (mkChain [[1]] 0 [])) = None
  /\ 0 < current_sequence_index (snd (ChainSequences_next (mkChain [[1]] 0 [])))
  /\ 1 <= current_sequence_index (snd (ChainSequences_next (mkChain [[1]] 0 []))).
Proof.
  assert (H : fst (ChainSequences_next (mkChain [[1]] 0 [])) = None) by reflexivity.
  split; [exact H|].
  exact (proj2 (proj2 (ChainSequences_next_index nat (mkChain [[1]] 0 []))) H).
Defined.

(** X2.  Chaining composes: the sequences [xs] followed by the sequences [ys]
    chain to the chain of [xs] followed by the chain of [ys], for the
    generator and, call by call, for the iterator object. *)
Theorem chain_of_chains (A : Type) (xs ys : list (list A)) :
  chain_sequences (xs ++ ys)
  = chain_sequences [chain_sequences xs; chain_sequences ys]
  /\ cursor_yields (@ChainSequences_next A) (ChainSequences_init (xs ++ ys))
       (chain_sequences xs ++ chain_sequences ys).
Proof.
  assert (E : chain_sequences (xs ++ ys) = chain_sequences xs ++ chain_sequences ys).
  { rewrite !chain_sequences_concat. apply concat_app. }
  split.
  - rewrite E. simpl. rewrite app_nil_r. reflexivity.
  - rewrite <- E, chain_sequences_concat, <- ChainSequences_init_pending.
    apply ChainSequences_yields_pending.
Qed.

(** ** Zip, the tuples and the iterators *)

Lemma zip_collect_width (A : Type) (its its' : list (iterator A)) (result t : list A) :
  zip_collect result its = (Some t, its') ->
  length t = length result + length its /\ length its' = length its.
Proof.
  revert result its'; induction its as [|it r IH]; intros result its'; simpl.
  - intros H; injection H as <- <-. split; [lia | reflexivity].
  - destruct it as [|x it']; simpl; [discriminate|].
    destruct (zip_collect (result ++ [x]) r) as [[t'|] r'] eqn:E; [|discriminate].
    intros H; injection H as <- <-.
    destruct (IH _ _ E) as [H1 H2]. rewrite length_app in H1. simpl in *. lia.
Qed.

Lemma zip_collect_count (A : Type) (its : list (iterator A)) (result : list A) :
  length (snd (zip_collect result its)) = length its.
Proof.
  revert result; induction its as [|it r IH]; intros result; simpl; [reflexivity|].
  destruct it as [|x it']; simpl; [reflexivity|].
  specialize (IH (result ++ [x])).
  destruct (zip_collect (result ++ [x]) r) as [t' r']. simpl in *. congruence.
Qed.

(** X3.  Every tuple that either zip form returns has one component per input
    sequence, whatever the call. *)
Theorem zip_tuple_width (A : Type) (sequences : list (list A)) (n : nat) (t : list A) :
  (nth_advance (@ZipSequences_next A) (ZipSequences_init sequences) n = Some t ->
   length t = length sequences)
  /\ (nth_advance (@zip_sequences_next A) (zip_sequences sequences) n = Some t ->
      length t = length sequences).
Proof.
  assert (H : forall n ss its ix,
             nth_advance (@ZipSequences_next A) (mkZip ss its ix) n = Some t ->
             length t = length its).
  { clear n. induction n as [|n IH]; intros ss its ix.
    - unfold nth_advance, ZipSequences_next. simpl.
      destruct (zip_collect [] its) as [[t'|] its'] eqn:E; simpl; [|discriminate].
      intros H; injection H as ->. apply (zip_collect_width A its its' [] t E).
    - rewrite nth_advance_S. unfold ZipSequences_next at 2. simpl.
      pose proof (zip_collect_count A its []) as Hc.
      destruct (zip_collect [] its) as [r its']. simpl in *.
      intros H. rewrite <- Hc. apply (IH ss its' ix H). }
  assert (Hinit : length (map (@iter A) sequences) = length sequences)
    by apply length_map.
  split; intros Hn; rewrite <- Hinit.
  - apply (H n sequences _ 0 Hn).
  - unfold zip_sequences in Hn.
    rewrite (zip_forms_agree sequences 0 n (map (@iter A) sequences)) in Hn.
    apply (H n sequences _ 0 Hn).
Qed.

(** The theorem at [[1,2], [3,4], [5,6]], call 1. *)
Lemma zip_tuple_width_witness :
  length [2; 4; 6] = length [[1; 2]; [3; 4]; [5; 6]].
Proof.
  exact (proj1 (zip_tuple_width nat [[1; 2]; [3; 4]; [5; 6]] 1 [2; 4; 6]) eq_refl).
Defined.

(** X4.  For every list of input sequences, the empty one included, a call of
    the generator [zip_sequences] returns what the same call of the
    [ZipSequences] object returns. *)
Theorem zip_generator_is_zip_object (A : Type) (sequences : list (list A)) (n : nat) :
  nth_advance (@zip_sequences_next A) (zip_sequences sequences) n
  = nth_advance (@ZipSequences_next A) (ZipSequences_init sequences) n.
Proof.
  unfold zip_sequences, ZipSequences_init. apply zip_forms_agree.
Qed.

(** X5.  A call of [ZipSequences.__next__] that meets an exhausted iterator has
    already taken one element from each iterator before it: those elements
    are lost, the exhausted iterator and the ones after it are untouched. *)
Theorem ZipSequences_failed_call_consumes (A : Type) (ss : list (list A)) (ix : nat)
        (before after : list (iterator A)) :
  Forall (fun it => it <> []) before ->
  ZipSequences_next (mkZip ss (before ++ [] :: after) ix)
  = (None, mkZip ss (map (@tl A) before ++ [] :: after) ix).
Proof.
  intros Hb. unfold ZipSequences_next. simpl.
  assert (H : forall result,
             zip_collect result (before ++ [] :: after)
             = (None, map (@tl A) before ++ [] :: after)).
  { induction Hb as [|it r Hit _ IH]; intros result; simpl; [reflexivity|].
    destruct it as [|x it']; [congruence|]. simpl. rewrite IH. reflexivity. }
  rewrite H. reflexivity.
Qed.

(** The theorem at [ZipSequences([1,2,3], [4,5], [], [6])]. *)
Lemma ZipSequences_failed_call_consumes_witness :
  Forall (fun it : iterator nat => it <> []) [[1; 2; 3]; [4; 5]]
  /\ ZipSequences_next (mkZip [] ([[1; 2; 3]; [4; 5]] ++ [] :: [[6]]) 0)
     = (None, mkZip [] ([[2; 3]; [5]] ++ [] :: [[6]]) 0).
Proof.
  assert (H : Forall (fun it : iterator nat => it <> []) [[1; 2; 3]; [4; 5]])
    by (repeat constructor; discriminate).
  split; [exact H|].
  exact (ZipSequences_failed_call_consumes nat [] 0 [[1; 2; 3]; [4; 5]] [[6]] H).
Defined.


(** ** Flatten, what comes out *)

Lemma flatten_iterator_generator_no_list (nested_list : list value) :
  Forall (fun v => isinstance_list v = false)
    (flatten_iterator_generator nested_list).
Proof.
  remember (list_weight nested_list) as w eqn:Hw.
  revert nested_list Hw. induction w as [w IH] using lt_wf_ind.
  intros [|x rest] Hw.
  - rewrite flatten_iterator_generator_nil. constructor.
  - assert (Hx : w = value_weight x + list_weight rest) by exact Hw.
    pose proof (value_weight_pos x) as Hpos.
    assert (Hrest : Forall (fun v => isinstance_list v = false)
                      (flatten_iterator_generator rest))
      by (apply (IH (list_weight rest)); [lia | reflexivity]).
    destruct (isinstance_list x) eqn:E.
    + destruct x as [| | |items]; try discriminate.
      rewrite flatten_iterator_generator_list. apply Forall_app. split; [|exact Hrest].
      apply (IH (list_weight items)); [|reflexivity].
      rewrite Hx. change (value_weight (VList items)) with (2 + list_weight items). lia.
    + rewrite (flatten_iterator_generator_leaf x rest E).
      constructor; [exact E | exact Hrest].
Qed.

Lemma flatten_iterator_generator_flat (l : list value) :
  Forall (fun v => isinstance_list v = false) l ->
  flatten_iterator_generator l = l.
Proof.
  induction 1 as [|x r Hx _ IH].
  - apply flatten_iterator_generator_nil.
  - rewrite (flatten_iterator_generator_leaf x r Hx), IH. reflexivity.
Qed.

(** X6.  Neither flatten form ever hands out a list: whatever a call returns is
    not a list instance. *)
Theorem flatten_never_yields_a_list (nested_list : list value) (n : nat) (v : value) :
  (nth_advance FlattenIterator_next (FlattenIterator_init nested_list) n = Some v ->
   isinstance_list v = false)
  /\ (nth_advance (@gen_next value) (flatten_iterator_generator nested_list) n = Some v ->
      isinstance_list v = false).
Proof.
  assert (H : nth_error (flatten_iterator_generator nested_list) n = Some v ->
              isinstance_list v = false).
  { intros Hn. apply nth_error_In in Hn.
    pose proof (flatten_iterator_generator_no_list nested_list) as Hall.
    rewrite Forall_forall in Hall. apply Hall. exact Hn. }
  split; intros Hn; apply H; rewrite <- Hn; symmetry.
  - apply FlattenIterator_yields.
  - apply gen_next_yields.
Qed.

(** The theorem at [[[1], (2, [3])]], call 1: the tuple comes out, the list
    in it stays inside. *)
Lemma flatten_never_yields_a_list_witness :
  isinstance_list (VTuple [VInt 2; VList [VInt 3]]) = false.
Proof.
  exact (proj1 (flatten_never_yields_a_list
                  [VList [VInt 1]; VTuple [VInt 2; VList [VInt 3]]] 1
                  (VTuple [VInt 2; VList [VInt 3]])) eq_refl).
Defined.

(** X7.  A list without any list among its elements is flattened to itself, by
    the generator and by the iterator object. *)
Theorem flatten_flat_list_unchanged (l : list value) :
  Forall (fun v => isinstance_list v = false) l ->
  flatten_iterator_generator l = l
  /\ cursor_yields FlattenIterator_next (FlattenIterator_init l) l.
Proof.
  intros H. pose proof (flatten_iterator_generator_flat l H) as E.
  split; [exact E|]. rewrite <- E at 2. apply FlattenIterator_yields.
Qed.

(** The theorem at [[1, "ab", (2, [3])]]. *)
Lemma flatten_flat_list_unchanged_witness :
  Forall (fun v => isinstance_list v = false)
    [VInt 1; VStr "ab"; VTuple [VInt 2; VList [VInt 3]]]
  /\ flatten_iterator_generator [VInt 1; VStr "ab"; VTuple [VInt 2; VList [VInt 3]]]
     = [VInt 1; VStr "ab"; VTuple [VInt 2; VList [VInt 3]]].
Proof.
  assert (H : Forall (fun v => isinstance_list v = false)
                [VInt 1; VStr "ab"; VTuple [VInt 2; VList [VInt 3]]])
    by (repeat constructor).
  split; [exact H|].
  exact (proj1 (flatten_flat_list_unchanged
                  [VInt 1; VStr "ab"; VTuple [VInt 2; VList [VInt 3]]] H)).
Defined.

(** X8.  Flattening is idempotent: flattening the output of a flattening gives
    that output again. *)
Theorem flatten_idempotent (nested_list : list value) :
  flatten_iterator_generator (flatten_iterator_generator nested_list)
  = flatten_iterator_generator nested_list
  /\ cursor_yields FlattenIterator_next
       (FlattenIterator_init (flatten_iterator_generator nested_list))
       (flatten_iterator_generator nested_list).
Proof.
  pose proof (flatten_iterator_generator_flat _
                (flatten_iterator_generator_no_list nested_list)) as E.
  split; [exact E|]. rewrite <- E at 2. apply FlattenIterator_yields.
Qed.

(** X9.  Flatten and chain compose: flattening a list of lists is chaining the
    flattenings of the lists, and flattening a concatenation is chaining the
    two flattenings. *)
Theorem flatten_of_lists_is_chain (lists : list (list value)) (l1 l2 : list value) :
  flatten_iterator_generator (map VList lists)
  = chain_sequences (map flatten_iterator_generator lists)
  /\ flatten_iterator_generator (l1 ++ l2)
     = chain_sequences [flatten_iterator_generator l1; flatten_iterator_generator l2].
Proof.
  split.
  - induction lists as [|l r IH]; simpl.
    + apply flatten_iterator_generator_nil.
    + rewrite flatten_iterator_generator_list, IH. reflexivity.
  - rewrite flatten_iterator_generator_app. simpl. rewrite app_nil_r. reflexivity.
Qed.

(** ** Flatten, the height of the stack *)

Lemma list_depth_element (l : list value) (i : nat) (items : list value) :
  nth_error l i = Some (VList items) -> S (list_depth items) <= list_depth l.
Proof.
  revert i; induction l as [|x l IH]; intros [|i] H; simpl in H; try discriminate.
  - injection H as ->.
    change (list_depth (VList items :: l))
      with (Nat.max (S (list_depth items)) (list_depth l)).
    lia.
  - specialize (IH i H).
    change (list_depth (x :: l)) with (Nat.max (value_depth x) (list_depth l)).
    lia.
Qed.

Lemma stack_within_next (bound : nat) (stack : FlattenIterator) :
  stack_within bound stack ->
  stack_within bound (snd (FlattenIterator_next stack)).
Proof.
  funelim (FlattenIterator_next stack); intros Hs; simpl in Hs;
    try (simpl; tauto).
  - match goal with IH : forall b, stack_within b _ -> _ |- _ => apply IH end.
    simpl. destruct Hs as [H1 H2].
    match goal with
    | E : nth_error _ _ = Some (VList _) |- _ =>
        pose proof (list_depth_element _ _ _ E)
    end.
    split; [lia | tauto].
  - match goal with IH : forall b, stack_within b _ -> _ |- _ => apply IH end. tauto.
Qed.

(** X11.  Between calls the stack of a [FlattenIterator] never holds more frames
    than one plus the nesting depth of the list it was built from. *)
Theorem FlattenIterator_stack_height (nested_list : list value) (n : nat) :
  length (advance_n FlattenIterator_next n (FlattenIterator_init nested_list))
  <= S (list_depth nested_list).
Proof.
  assert (H : forall n stack,
             stack_within (list_depth nested_list) stack ->
             stack_within (list_depth nested_list)
               (advance_n FlattenIterator_next n stack)).
  { clear n. induction n as [|n IH]; intros stack Hs; simpl; [exact Hs|].
    apply IH. apply stack_within_next. exact Hs. }
  specialize (H n (FlattenIterator_init nested_list)).
  destruct (advance_n FlattenIterator_next n (FlattenIterator_init nested_list))
    as [|f rest]; [simpl; lia|].
  assert (Hi : stack_within (list_depth nested_list)
                 (FlattenIterator_init nested_list)) by (simpl; lia).
  destruct (H Hi) as [H1 _]. simpl. lia.
Qed.


(** ** Combinations, the list [current] and the shape of the output *)

Lemma combine_loop_restores (A : Type) (sequence : list A) (k : Z) :
  forall m i current,
    m = length sequence - i ->
    exists ys, combine_loop sequence k i current = Some (ys, current).
Proof.
  induction m as [|m IH]; intros i current Hm.
  - exists []. apply combine_loop_done. lia.
  - assert (Hi : i < length sequence) by lia.
    rewrite (combine_loop_turn A sequence k i current Hi).
    destruct (nth_error sequence i) as [x|] eqn:Hx;
      [|apply nth_error_None in Hx; lia].
    cbn [bind]. cbv zeta.
    destruct (IH (S i) current) as [zs Hzs]; [lia|].
    destruct (Z.of_nat (length (current ++ [x])) =? k)%Z.
    + cbn [bind]. rewrite pop_snoc. cbn [bind]. rewrite Hzs. cbn [bind].
      eexists. reflexivity.
    + destruct (IH (S i) (current ++ [x])) as [ys Hys]; [lia|].
      rewrite Hys. cbn [bind]. rewrite pop_snoc. cbn [bind]. rewrite Hzs. cbn [bind].
      eexists. reflexivity.
Qed.

(** X12.  [_combine(start, current)] with [start >= 0] raises nothing and
    leaves the list [current] as it found it, whatever [current] holds: each
    [append] is undone by its [pop], no index leaves the sequence and [pop]
    never meets an empty list. *)
Theorem combine_restores_current (A : Type) (sequence : list A) (k : Z)
        (start : Z) (current : list A) :
  (0 <= start)%Z ->
  exists ys, _combine sequence k (Z.to_nat start) current = Some (ys, current).
Proof.
  intros _. unfold _combine. destruct (Z.of_nat (length current) =? k)%Z.
  - eexists. reflexivity.
  - apply (combine_loop_restores A sequence k
             (length sequence - Z.to_nat start) (Z.to_nat start) current eq_refl).
Qed.

(** The theorem at [_combine(1, [7, 8, 9])] on [[1, 2, 3]] with [k = 2],
    a [current] longer than [k]. *)
Lemma combine_restores_current_witness :
  (0 <= 1)%Z
  /\ exists ys, _combine [1; 2; 3] 2%Z (Z.to_nat 1) [7; 8; 9] = Some (ys, [7; 8; 9]).
Proof.
  assert (H : (0 <= 1)%Z) by lia.
  split; [exact H|].
  exact (combine_restores_current nat [1; 2; 3] 2%Z 1%Z [7; 8; 9] H).
Defined.

Lemma subsequences_too_long (X : Type) (l : list X) (d : nat) :
  length l < d -> subsequences d l = [].
Proof.
  revert d; induction l as [|x r IH]; intros [|d] H; simpl in *; try lia.
  - reflexivity.
  - rewrite (IH d), (IH (S d)) by lia. reflexivity.
Qed.

Lemma subsequences_whole (X : Type) (l : list X) :
  subsequences (length l) l = [l].
Proof.
  induction l as [|x r IH]; simpl; [reflexivity|].
  rewrite IH, (subsequences_too_long X r (S (length r))) by lia. reflexivity.
Qed.

Lemma subsequences_single (X : Type) (l : list X) :
  subsequences 1 l = map (fun x => [x]) l.
Proof.
  induction l as [|x r IH]; simpl; [reflexivity|].
  rewrite IH. destruct r; reflexivity.
Qed.

(** X13.  The two ends of the range of [k] on a sequence that is not empty:
    [k = len(sequence)] yields the sequence itself as the only tuple, and
    [k = 1] yields one 1-tuple per element, in the order of the sequence. *)
Theorem combinations_whole_and_single (A : Type) (sequence : list A) :
  sequence <> [] ->
  generate_combinations sequence (Z.of_nat (length sequence)) = Some [sequence]
  /\ generate_combinations sequence 1%Z = Some (map (fun x => [x]) sequence).
Proof.
  intros Hne.
  assert (Hlen : 0 < length sequence) by (destruct sequence; [congruence | simpl; lia]).
  split.
  - rewrite (generate_combinations_subsequences A sequence _ (length sequence) eq_refl)
      by lia.
    rewrite subsequences_whole. reflexivity.
  - rewrite (generate_combinations_subsequences A sequence 1%Z 1 eq_refl) by lia.
    rewrite subsequences_single. reflexivity.
Qed.

(** The theorem at [['a', 'b', 'c']]. *)
Lemma combinations_whole_and_single_witness :
  [VStr "a"; VStr "b"; VStr "c"] <> []
  /\ generate_combinations [VStr "a"; VStr "b"; VStr "c"] 3%Z
     = Some [[VStr "a"; VStr "b"; VStr "c"]]
  /\ generate_combinations [VStr "a"; VStr "b"; VStr "c"] 1%Z
     = Some [[VStr "a"]; [VStr "b"]; [VStr "c"]].
Proof.
  assert (H : [VStr "a"; VStr "b"; VStr "c"] <> []) by discriminate.
  split; [exact H|].
  exact (combinations_whole_and_single value [VStr "a"; VStr "b"; VStr "c"] H).
Defined.

Lemma subsequences_members (X : Type) (d : nat) (l s : list X) :
  In s (subsequences d l) -> incl s l.
Proof.
  revert d s; induction l as [|x r IH]; intros [|d] s Hin; simpl in Hin.
  - destruct Hin as [<-|[]]. intros y [].
  - destruct Hin.
  - destruct Hin as [<-|[]]. intros y [].
  - apply in_app_or in Hin. destruct Hin as [Hin|Hin].
    + apply in_map_iff in Hin. destruct Hin as [s' [<- Hs']].
      intros y [<-|Hy]; [left; reflexivity | right; apply (IH d s' Hs' y Hy)].
    + intros y Hy. right. apply (IH (S d) s Hin y Hy).
Qed.

Lemma subsequences_NoDup_each (X : Type) (d : nat) (l s : list X) :
  NoDup l -> In s (subsequences d l) -> NoDup s.
Proof.
  intros Hl. revert d s. induction Hl as [|x r Hx Hr IH]; intros [|d] s Hin;
    simpl in Hin.
  - destruct Hin as [<-|[]]. constructor.
  - destruct Hin.
  - destruct Hin as [<-|[]]. constructor.
  - apply in_app_or in Hin. destruct Hin as [Hin|Hin].
    + apply in_map_iff in Hin. destruct Hin as [s' [<- Hs']].
      constructor; [|apply (IH d s' Hs')].
      intros Hxs. apply Hx. apply (subsequences_members X d r s' Hs' x Hxs).
    + apply (IH (S d) s Hin).
Qed.

Lemma subsequences_NoDup (X : Type) (d : nat) (l : list X) :
  NoDup l -> NoDup (subsequences d l).
Proof.
  intros Hl. revert d. induction Hl as [|x r Hx Hr IH]; intros [|d]; simpl;
    try (repeat constructor; simpl; tauto).
  apply NoDup_app.
  - specialize (IH d). induction IH as [|s ss Hs _ IHss]; simpl; constructor;
      [|exact IHss].
    intros Hin. apply in_map_iff in Hin. destruct Hin as [s' [E Hs']].
    injection E as ->. contradiction.
  - apply IH.
  - intros s Hs Hs2. apply in_map_iff in Hs. destruct Hs as [s' [<- _]].
    apply Hx. apply (subsequences_members X (S d) r (x :: s') Hs2 x).
    left. reflexivity.
Qed.

(** X14.  On a sequence without repeated elements and for [0 < k <= n], no tuple
    is yielded twice and no tuple holds an element twice. *)
Theorem combinations_without_repetition (A : Type) (sequence : list A) (k : Z) :
  NoDup sequence ->
  (0 < k <= Z.of_nat (length sequence))%Z ->
  exists out,
    generate_combinations sequence k = Some out
    /\ NoDup out
    /\ Forall (fun tuple => NoDup tuple) out.
Proof.
  intros Hnd Hk. exists (subsequences (Z.to_nat k) sequence).
  split; [apply generate_combinations_subsequences; lia|].
  split; [apply subsequences_NoDup; exact Hnd|].
  apply Forall_forall. intros s Hs.
  apply (subsequences_NoDup_each A (Z.to_nat k) sequence s Hnd Hs).
Qed.

(** The theorem at [[1, 2, 3, 4]] and [k = 2]. *)
Lemma combinations_without_repetition_witness :
  NoDup [1; 2; 3; 4]
  /\ (0 < 2 <= Z.of_nat (length [1; 2; 3; 4]))%Z
  /\ exists out,
       generate_combinations [1; 2; 3; 4] 2%Z = Some out
       /\ NoDup out
       /\ Forall (fun tuple => NoDup tuple) out.
Proof.
  assert (H1 : NoDup [1; 2; 3; 4])
    by (repeat constructor; simpl; intros H; repeat destruct H as [H|H]; discriminate H || exact H).
  assert (H2 : (0 < 2 <= Z.of_nat (length [1; 2; 3; 4]))%Z) by (simpl; lia).
  split; [exact H1|]. split; [exact H2|].
  exact (combinations_without_repetition nat [1; 2; 3; 4] 2%Z H1 H2).
Defined.

(** X15.  Pascal's rule on the output: for [1 < k <= len(rest)], the tuples of
    [[x] + rest] are [x] put in front of each [(k-1)]-tuple of [rest],
    followed by the [k]-tuples of [rest]. *)
Theorem combinations_first_element (A : Type) (x : A) (rest : list A) (k : Z) :
  (1 < k <= Z.of_nat (length rest))%Z ->
  exists with_x without_x,
    generate_combinations rest (k - 1) = Some with_x
    /\ generate_combinations rest k = Some without_x
    /\ generate_combinations (x :: rest) k
       = Some (map (cons x) with_x ++ without_x).
Proof.
  intros Hk.
  exists (subsequences (Z.to_nat (k - 1)) rest), (subsequences (Z.to_nat k) rest).
  split; [apply generate_combinations_subsequences; lia|].
  split; [apply generate_combinations_subsequences; lia|].
  rewrite (generate_combinations_subsequences A (x :: rest) k (Z.to_nat k))
    by (simpl length; lia).
  replace (Z.to_nat k) with (S (Z.to_nat (k - 1))) by lia. reflexivity.
Qed.

(** The theorem at [x = 1], [rest = [2, 3, 4]] and [k = 2]. *)
Lemma combinations_first_element_witness :
  (1 < 2 <= Z.of_nat (length [2; 3; 4]))%Z
  /\ exists with_x without_x,
       generate_combinations [2; 3; 4] (2 - 1) = Some with_x
       /\ generate_combinations [2; 3; 4] 2%Z = Some without_x
       /\ generate_combinations (1 :: [2; 3; 4]) 2%Z
          = Some (map (cons 1) with_x ++ without_x).
Proof.
  assert (H : (1 < 2 <= Z.of_nat (length [2; 3; 4]))%Z) by (simpl; lia).
  split; [exact H|].
  exact (combinations_first_element nat 1 [2; 3; 4] 2%Z H).
Defined.


(** ** Primes, the inner loop and the growth of the output *)

Local Open Scope Z_scope.

(** X16.  The inner loop of the sieve, on a marker array of [n] entries and for
    [i >= 1]: it raises nothing, keeps the length, marks [False] the entries
    of the multiples of [i] from [i * i] on and leaves every other entry as
    it was. *)
Theorem strike_multiples_marks (n i : Z) (is_prime : list bool) :
  Z.of_nat (length is_prime) = n ->
  0 < i ->
  exists marked,
    strike_multiples n i is_prime = Some marked
    /\ length marked = length is_prime
    /\ forall x, 0 <= x < n ->
                 (i * i <= x /\ (i | x) -> getitem marked x = Some false)
                 /\ (~ (i * i <= x /\ (i | x)) ->
                     getitem marked x = getitem is_prime x).
Proof.
  intros Hlen Hi.
  destruct (strike_all (py_range (i * i) n i) is_prime) as [a' [Hrun [Hlen' Hget]]].
  { apply Forall_forall. intros j Hj. apply py_range_In in Hj; [nia | lia]. }
  exists a'. split; [exact Hrun|]. split; [exact Hlen'|].
  intros x Hx. destruct (Hget x) as [Hin Hout]; [lia|].
  assert (Hiff : In x (py_range (i * i) n i) <-> i * i <= x /\ (i | x)).
  { rewrite py_range_In by lia. split.
    - intros [Hr [c [Hc ->]]]. split; [lia|]. exists (i + c). lia.
    - intros [Hr [q Hq]]. split; [lia|]. exists (q - i). split; nia. }
  split.
  - intros H. apply Hin. apply Hiff. exact H.
  - intros H. apply Hout. intros Hc. apply H. apply Hiff. exact Hc.
Qed.

(** The theorem on ten entries all [True], with [i = 2]. *)
Lemma strike_multiples_marks_witness :
  Z.of_nat (length (repeat true 10)) = 10
  /\ 0 < 2
  /\ exists marked,
       strike_multiples 10 2 (repeat true 10) = Some marked
       /\ length marked = length (repeat true 10)
       /\ forall x, 0 <= x < 10 ->
                    (2 * 2 <= x /\ (2 | x) -> getitem marked x = Some false)
                    /\ (~ (2 * 2 <= x /\ (2 | x)) ->
                        getitem marked x = getitem (repeat true 10) x).
Proof.
  assert (H1 : Z.of_nat (length (repeat true 10)) = 10) by reflexivity.
  assert (H2 : 0 < 2) by lia.
  split; [exact H1|]. split; [exact H2|].
  exact (strike_multiples_marks 10 2 (repeat true 10) H1 H2).
Defined.

(** For [n >= 3] the generator yields 1 and then the candidates of
    [range(2, n)] whose marker survived a complete sieve. *)
Lemma generate_primes_sieved (n : Z) :
  3 <= n ->
  exists a,
    sieve_inv n (py_range 2 (Z.sqrt n + 1) 1) a
    /\ generate_primes n = Some (1 :: filter (unmarked a) (py_range 2 n 1)).
Proof.
  intros Hn. unfold generate_primes.
  destruct (n <=? 1) eqn:E1; [apply Z.leb_le in E1; lia|].
  destruct (n <=? 2) eqn:E2; [apply Z.leb_le in E2; lia|].
  assert (Hlen : Z.of_nat (length (repeat true (Z.to_nat n))) = n)
    by (rewrite repeat_length; lia).
  assert (Hi0 : 0 <= 0 < Z.of_nat (length (repeat true (Z.to_nat n)))) by lia.
  pose proof (setitem_in bool (repeat true (Z.to_nat n)) 0 false Hi0) as H0.
  rewrite H0. cbn [bind].
  set (a0 := list_update (repeat true (Z.to_nat n)) (Z.to_nat 0) false) in *.
  assert (Hlen0 : length a0 = length (repeat true (Z.to_nat n)))
    by apply list_update_length.
  assert (Hi1 : 0 <= 1 < Z.of_nat (length a0)) by lia.
  pose proof (setitem_in bool a0 1 false Hi1) as H1.
  rewrite H1. cbn [bind].
  set (a1 := list_update a0 (Z.to_nat 1) false) in *.
  pose proof (sieve_inv_init n a0 a1 Hn H0 H1) as Hinit.
  destruct (for_each_inv Z (list bool) (sieve_inv n) (sieve_turn n)
              (py_range 2 (Z.sqrt n + 1) 1) a1 Hinit) as [a [Hrun Hinv]].
  { intros visited i s Hi Hs. apply sieve_turn_inv; [|exact Hs].
    apply py_range_step1_In in Hi. lia. }
  rewrite Hrun. cbn [bind].
  assert (Hla : Z.of_nat (length a) = n) by apply Hinv.
  rewrite yield_unmarked_filter.
  2:{ apply Forall_forall. intros i Hi. apply py_range_step1_In in Hi. lia. }
  cbn [bind]. exists a. split; [exact Hinv | reflexivity].
Qed.

Lemma py_range_split (lo mid hi : Z) :
  lo <= mid <= hi ->
  py_range lo hi 1 = py_range lo mid 1 ++ py_range mid hi 1.
Proof.
  intros H. unfold py_range.
  rewrite !Z.div_1_r.
  set (a := Z.to_nat (mid - lo + 1 - 1)). set (b := Z.to_nat (hi - mid + 1 - 1)).
  replace (Z.to_nat (hi - lo + 1 - 1)) with (a + b)%nat by (unfold a, b; lia).
  assert (E : forall len start,
             map (fun c => lo + Z.of_nat c * 1) (seq (a + start) len)
             = map (fun c => mid + Z.of_nat c * 1) (seq start len)).
  { induction len as [|len IH]; intros start; simpl; [reflexivity|].
    f_equal; [unfold a; lia|]. rewrite <- Nat.add_succ_r. apply IH. }
  rewrite seq_app, map_app. f_equal.
  replace (0 + a)%nat with (a + 0)%nat by lia. apply E.
Qed.

Lemma unmarked_agree (n m x : Z) (a b : list bool) :
  sieve_inv n (py_range 2 (Z.sqrt n + 1) 1) a ->
  sieve_inv m (py_range 2 (Z.sqrt m + 1) 1) b ->
  2 <= x < n -> n <= m ->
  unmarked b x = unmarked a x.
Proof.
  intros Ha Hb Hx Hnm.
  assert (Hxm : 2 <= x < m) by lia.
  pose proof (sieve_inv_final n x a Ha Hx) as Hfa.
  pose proof (sieve_inv_final m x b Hb Hxm) as Hfb.
  destruct (unmarked a x), (unmarked b x); try reflexivity.
  - exfalso. assert (false = true) by (apply Hfb, Hfa; reflexivity). discriminate.
  - exfalso. assert (false = true) by (apply Hfa, Hfb; reflexivity). discriminate.
Qed.

(** X17.  Raising the bound only adds values at the end: for [n <= m], what
    [generate_primes(n)] yields is the beginning of what
    [generate_primes(m)] yields, and everything after it is [>= n]. *)
Theorem generate_primes_prefix (n m : Z) :
  n <= m ->
  exists out more,
    generate_primes n = Some out
    /\ generate_primes m = Some (out ++ more)
    /\ Forall (fun v => n <= v) more.
Proof.
  intros Hnm.
  assert (Hge : forall b lo hi, 
             Forall (fun v => lo <= v) (filter (unmarked b) (py_range lo hi 1))).
  { intros b lo hi. apply Forall_forall. intros v Hv. apply filter_In in Hv.
    destruct Hv as [Hv _]. apply py_range_step1_In in Hv. lia. }
  destruct (Z_lt_le_dec m 3) as [Hm|Hm].
  - (* both bounds below 3: the outputs are read off *)
    unfold generate_primes.
    destruct (n <=? 1) eqn:En1; [apply Z.leb_le in En1 | apply Z.leb_gt in En1];
      destruct (m <=? 1) eqn:Em1; [apply Z.leb_le in Em1 | apply Z.leb_gt in Em1
                                  | apply Z.leb_le in Em1 | apply Z.leb_gt in Em1];
      try lia.
    + exists [], []. repeat split; constructor.
    + destruct (m <=? 2) eqn:Em2; [|apply Z.leb_gt in Em2; lia].
      exists [], [1]. repeat split. repeat constructor. lia.
    + destruct (n <=? 2) eqn:En2; [|apply Z.leb_gt in En2; lia].
      destruct (m <=? 2) eqn:Em2; [|apply Z.leb_gt in Em2; lia].
      exists [1], []. repeat split; constructor.
  - destruct (generate_primes_sieved m Hm) as [b [Hb Eb]].
    destruct (Z_lt_le_dec n 3) as [Hn|Hn].
    + unfold generate_primes at 1.
      destruct (n <=? 1) eqn:En1; [apply Z.leb_le in En1 | apply Z.leb_gt in En1].
      * exists [], (1 :: filter (unmarked b) (py_range 2 m 1)).
        split; [reflexivity|]. split; [exact Eb|].
        constructor; [lia|]. eapply Forall_impl; [|apply (Hge b 2 m)].
        simpl. intros; lia.
      * destruct (n <=? 2) eqn:En2; [|apply Z.leb_gt in En2; lia].
        exists [1], (filter (unmarked b) (py_range 2 m 1)).
        split; [reflexivity|]. split; [exact Eb|].
        eapply Forall_impl; [|apply (Hge b 2 m)]. simpl. intros; lia.
    + destruct (generate_primes_sieved n Hn) as [a [Ha Ea]].
      exists (1 :: filter (unmarked a) (py_range 2 n 1)),
             (filter (unmarked b) (py_range n m 1)).
      split; [exact Ea|]. split; [|apply Hge].
      rewrite Eb, (py_range_split 2 n m) by lia.
      rewrite filter_app. simpl. do 2 f_equal. f_equal.
      apply filter_ext_in. intros x Hx. apply py_range_step1_In in Hx.
      apply (unmarked_agree n m x a b Ha Hb Hx Hnm).
Qed.

(** The theorem at [n = 8] and [m = 20]. *)
Lemma generate_primes_prefix_witness :
  8 <= 20
  /\ exists out more,
       generate_primes 8 = Some out
       /\ generate_primes 20 = Some (out ++ more)
       /\ Forall (fun v => 8 <= v) more.
Proof.
  assert (H : 8 <= 20) by lia.
  split; [exact H | exact (generate_primes_prefix 8 20 H)].
Defined.

(** X18.  Among the values [>= 2], [generate_primes(n)] yields exactly the primes
    below [n], primes as [Znumtheory.prime] has them: the numbers above 1
    that are coprime with every smaller positive number. *)
Theorem generate_primes_standard_primes (n v : Z) :
  2 <= v ->
  exists out,
    generate_primes n = Some out
    /\ (In v out <-> Znumtheory.prime v /\ v < n).
Proof.
  intros Hv.
  assert (Hp : Znumtheory.prime v <-> no_divisor v).
  { rewrite <- Znumtheory.prime_alt. unfold Z.prime, no_divisor. split.
    - intros [_ H] d Hd. apply H. lia.
    - intros H. split; [lia|]. intros d Hd. apply H. lia. }
  destruct (Z_lt_le_dec n 3) as [Hn|Hn].
  - unfold generate_primes.
    destruct (n <=? 1) eqn:En1.
    + exists []. split; [reflexivity|]. apply Z.leb_le in En1.
      split; [intros [] | lia].
    + apply Z.leb_gt in En1.
      destruct (n <=? 2) eqn:En2; [|apply Z.leb_gt in En2; lia].
      exists [1]. split; [reflexivity|].
      split; [intros [H|[]]; lia | lia].
  - destruct (generate_primes_sieved n Hn) as [a [Ha Ea]].
    exists (1 :: filter (unmarked a) (py_range 2 n 1)). split; [exact Ea|].
    simpl. rewrite filter_In, py_range_step1_In, Hp. split.
    + intros [H|[Hr Hu]]; [lia|]. split; [|lia].
      apply (sieve_inv_final n v a Ha Hr). exact Hu.
    + intros [Hnd Hlt]. right. split; [lia|].
      apply (sieve_inv_final n v a Ha); [lia | exact Hnd].
Qed.

(** The theorem at [n = 20] and [v = 13]. *)
Lemma generate_primes_standard_primes_witness :
  2 <= 13
  /\ exists out,
       generate_primes 20 = Some out
       /\ (In 13 out <-> Znumtheory.prime 13 /\ 13 < 20).
Proof.
  assert (H : 2 <= 13) by lia.
  split; [exact H | exact (generate_primes_standard_primes 20 13 H)].
Defined.

Local Close Scope Z_scope.


(** ** The recursive flattenings under a bound on the frames *)

Lemma list_depth_cons (x : value) (l : list value) :
  list_depth (x :: l) = Nat.max (value_depth x) (list_depth l).
Proof. reflexivity. Qed.

Lemma value_depth_list (items : list value) :
  value_depth (VList items) = S (list_depth items).
Proof. reflexivity. Qed.

Lemma value_depth_leaf (element : value) :
  isinstance_list element = false -> value_depth element = 0.
Proof. destruct element; try reflexivity. discriminate. Qed.

Lemma flatten_generator_loop_leaf enter element rest :
  isinstance_list element = false ->
  flatten_generator_loop enter (element :: rest)
  = (let (zs, r) := flatten_generator_loop enter rest in (element :: zs, r)).
Proof. destruct element; try reflexivity. discriminate. Qed.

(** The run under [frames] frames: it ends with [RecursionError] exactly when
    the nesting is at least [frames] deep; otherwise it yields all the values;
    in any case what it yields is the beginning of all the values. *)
Lemma flatten_iterator_generator_frames_run (frames : nat) :
  forall nested_list,
    (list_depth nested_list < frames ->
     flatten_iterator_generator_frames frames nested_list
     = (flatten_iterator_generator nested_list, false))
    /\ (frames <= list_depth nested_list ->
        snd (flatten_iterator_generator_frames frames nested_list) = true)
    /\ exists more,
         flatten_iterator_generator nested_list
         = fst (flatten_iterator_generator_frames frames nested_list) ++ more.
Proof.
  induction frames as [|f IHf]; intros nested_list.
  - split; [lia|]. split; [reflexivity|].
    exists (flatten_iterator_generator nested_list). reflexivity.
  - change (flatten_iterator_generator_frames (S f) nested_list)
      with (flatten_generator_loop (flatten_iterator_generator_frames f) nested_list).
    induction nested_list as [|x rest IHl].
    + cbn [flatten_generator_loop list_depth fold_right].
      rewrite flatten_iterator_generator_nil.
      split; [reflexivity|]. split; [lia|]. exists []. reflexivity.
    + destruct IHl as [IH1 [IH2 [more2 IH3]]].
      rewrite list_depth_cons.
      destruct (isinstance_list x) eqn:E.
      * destruct x as [| | |items]; try discriminate.
        rewrite value_depth_list, flatten_iterator_generator_list.
        cbn [flatten_generator_loop].
        destruct (IHf items) as [F1 [F2 [more1 F3]]].
        destruct (flatten_iterator_generator_frames f items) as [ys raised] eqn:Ei.
        cbn [fst snd] in F2, F3.
        destruct raised.
        -- split; [|split].
           ++ intros H. assert (Hd : list_depth items < f) by lia.
              specialize (F1 Hd). discriminate F1.
           ++ reflexivity.
           ++ exists (more1 ++ flatten_iterator_generator rest). cbn [fst].
              rewrite F3, <- app_assoc. reflexivity.
        -- assert (Hd : list_depth items < f).
           { destruct (le_lt_dec f (list_depth items)) as [Hle|Hlt]; [|exact Hlt].
             specialize (F2 Hle). discriminate F2. }
           specialize (F1 Hd). injection F1 as ->.
           destruct (flatten_generator_loop (flatten_iterator_generator_frames f) rest)
             as [zs r] eqn:Er.
           cbn [fst snd] in IH2, IH3. split; [|split].
           ++ intros H. assert (Hr : list_depth rest < S f) by lia.
              specialize (IH1 Hr). injection IH1 as -> ->. reflexivity.
           ++ intros H. cbn [snd]. apply IH2. lia.
           ++ exists more2. cbn [fst]. rewrite IH3, app_assoc. reflexivity.
      * rewrite (value_depth_leaf x E), (flatten_iterator_generator_leaf x rest E),
          (flatten_generator_loop_leaf _ x rest E).
        destruct (flatten_generator_loop (flatten_iterator_generator_frames f) rest)
          as [zs r] eqn:Er.
        cbn [fst snd] in IH2, IH3. rewrite Nat.max_0_l. split; [|split].
        -- intros H. specialize (IH1 H). injection IH1 as -> ->. reflexivity.
        -- intros H. cbn [snd]. apply IH2. exact H.
        -- exists more2. cbn [fst]. rewrite IH3. reflexivity.
Qed.

Lemma flatten_iterator_generator_large (levels : nat) (i : Z) :
  flatten_iterator_generator (large_nested levels i)
  = map (fun j => VInt (i + Z.of_nat j)%Z) (seq 0 levels).
Proof.
  revert i; induction levels as [|levels IH]; intros i.
  - apply flatten_iterator_generator_nil.
  - change (large_nested (S levels) i)
      with ([VInt i; VList (large_nested levels (i + 1))]).
    rewrite (flatten_iterator_generator_leaf (VInt i) _ eq_refl),
      flatten_iterator_generator_list, flatten_iterator_generator_nil, app_nil_r, IH.
    simpl. f_equal; [f_equal; lia|].
    rewrite <- seq_shift, map_map. apply map_ext. intros j. f_equal. lia.
Qed.

Lemma flatten_iterator_generator_frames_large (frames : nat) :
  forall levels i,
    frames <= levels ->
    flatten_iterator_generator_frames frames (large_nested levels i)
    = (map (fun j => VInt (i + Z.of_nat j)%Z) (seq 0 frames), true).
Proof.
  induction frames as [|f IH]; intros levels i Hle; [reflexivity|].
  destruct levels as [|levels]; [lia|].
  change (flatten_iterator_generator_frames (S f) (large_nested (S levels) i))
    with (let (zs, r) :=
            let (ys, raised) :=
              flatten_iterator_generator_frames f (large_nested levels (i + 1)) in
            if raised then (ys, true)
            else let (zs, r) :=
                   flatten_generator_loop (flatten_iterator_generator_frames f) []
                 in (ys ++ zs, r)
          in (VInt i :: zs, r)).
  rewrite (IH levels (i + 1)%Z) by lia.
  simpl. f_equal. f_equal; [f_equal; lia|].
  rewrite <- seq_shift, map_map. apply map_ext. intros j. f_equal. lia.
Qed.

(** C8 on the code.  On the list that the module's own demonstration builds
    ([levels] numbers, each one level deeper than the one before) and with
    no more frames than levels, the generator yields the first [frames]
    numbers and then raises [RecursionError], whereas the stack-based
    [FlattenIterator] returns all the [levels] numbers and then stops: the
    two forms do not produce the same sequence. *)
Theorem flatten_generator_recursion_limit (levels frames : nat) (i : Z) :
  frames <= levels ->
  flatten_iterator_generator_frames frames (large_nested levels i)
  = (map (fun j => VInt (i + Z.of_nat j)%Z) (seq 0 frames), true)
  /\ cursor_yields FlattenIterator_next (FlattenIterator_init (large_nested levels i))
       (map (fun j => VInt (i + Z.of_nat j)%Z) (seq 0 levels)).
Proof.
  intros Hle. split.
  - apply flatten_iterator_generator_frames_large. exact Hle.
  - rewrite <- flatten_iterator_generator_large. apply FlattenIterator_yields.
Qed.

(** The theorem at the 1000 levels of the demonstration and 998 frames. *)
Lemma flatten_generator_recursion_limit_witness :
  998 <= 1000
  /\ flatten_iterator_generator_frames 998 (large_nested 1000 0)
     = (map (fun j => VInt (0 + Z.of_nat j)%Z) (seq 0 998), true)
  /\ cursor_yields FlattenIterator_next (FlattenIterator_init (large_nested 1000 0))
       (map (fun j => VInt (0 + Z.of_nat j)%Z) (seq 0 1000)).
Proof.
  assert (H : 998 <= 1000) by lia.
  split; [exact H|].
  exact (flatten_generator_recursion_limit 1000 998 0%Z H).
Defined.

(** X19.  The generator under a bound on the frames, against the iterator
    object, which needs none: when the nesting is at least [frames] deep the
    generator ends with [RecursionError] after yielding a beginning of what
    the [FlattenIterator] returns, and otherwise it yields exactly what the
    [FlattenIterator] returns. *)
Theorem flatten_generator_under_frame_limit (frames : nat) (nested_list : list value) :
  exists out,
    cursor_yields FlattenIterator_next (FlattenIterator_init nested_list) out
    /\ if frames <=? list_depth nested_list
       then snd (flatten_iterator_generator_frames frames nested_list) = true
            /\ exists more,
                 out = fst (flatten_iterator_generator_frames frames nested_list)
                         ++ more
       else flatten_iterator_generator_frames frames nested_list = (out, false).
Proof.
  exists (flatten_iterator_generator nested_list).
  split; [apply FlattenIterator_yields|].
  destruct (flatten_iterator_generator_frames_run frames nested_list)
    as [H1 [H2 H3]].
  destruct (Nat.leb_spec frames (list_depth nested_list)) as [Hle|Hlt].
  - split; [apply H2; exact Hle | exact H3].
  - apply H1. exact Hlt.
Qed.

Lemma flatten_recursive_loop_run (f : nat) :
  (forall l, flatten_recursive f l
             = if f <=? list_depth l then None
               else Some (flatten_iterator_generator l)) ->
  forall lst result,
    flatten_recursive_loop (flatten_recursive f) result lst
    = if S f <=? list_depth lst then None
      else Some (result ++ flatten_iterator_generator lst).
Proof.
  intros IHf. induction lst as [|x rest IHl]; intros result.
  - simpl. rewrite flatten_iterator_generator_nil, app_nil_r. reflexivity.
  - rewrite list_depth_cons. destruct (isinstance_list x) eqn:E.
    + destruct x as [| | |items]; try discriminate.
      rewrite value_depth_list, flatten_iterator_generator_list.
      cbn [flatten_recursive_loop]. rewrite IHf.
      destruct (Nat.leb_spec f (list_depth items)) as [Hi|Hi]; cbn [bind].
      * destruct (Nat.leb_spec (S f) (Nat.max (S (list_depth items)) (list_depth rest)));
          [reflexivity | lia].
      * rewrite IHl.
        destruct (Nat.leb_spec (S f) (list_depth rest));
          destruct (Nat.leb_spec (S f) (Nat.max (S (list_depth items)) (list_depth rest)));
          try lia; [reflexivity|].
        rewrite app_assoc. reflexivity.
    + rewrite (value_depth_leaf x E), (flatten_iterator_generator_leaf x rest E).
      rewrite Nat.max_0_l.
      replace (flatten_recursive_loop (flatten_recursive f) result (x :: rest))
        with (flatten_recursive_loop (flatten_recursive f) (result ++ [x]) rest)
        by (destruct x; try reflexivity; discriminate).
      rewrite IHl. destruct (S f <=? list_depth rest); [reflexivity|].
      rewrite <- app_assoc. reflexivity.
Qed.

Lemma flatten_recursive_run (frames : nat) (lst : list value) :
  flatten_recursive frames lst
  = if frames <=? list_depth lst then None
    else Some (flatten_iterator_generator lst).
Proof.
  revert lst; induction frames as [|f IHf]; intros lst; [reflexivity|].
  change (flatten_recursive (S f) lst)
    with (flatten_recursive_loop (flatten_recursive f) [] lst).
  rewrite (flatten_recursive_loop_run f IHf lst []). reflexivity.
Qed.

(** X10.  The eager [flatten_recursive] of [demonstrate_alternatives] against
    the iterator object: with more frames than the nesting is deep it returns
    the list of exactly the values that the [FlattenIterator] returns call by
    call; with fewer it raises [RecursionError] and returns nothing, where
    the [FlattenIterator] still returns them all. *)
Theorem flatten_recursive_is_flatten (frames : nat) (lst : list value) :
  exists out,
    cursor_yields FlattenIterator_next (FlattenIterator_init lst) out
    /\ flatten_recursive frames lst
       = if frames <=? list_depth lst then None else Some out.
Proof.
  exists (flatten_iterator_generator lst).
  split; [apply FlattenIterator_yields | apply flatten_recursive_run].
Qed.
